(** * ai-debugger-mcp: the error-extraction engine of [src/server.ts]

    A shallow embedding of [parseError], [summarizeStack], [truncate],
    [renderSummary] and the [debug] tool handler, with the regular
    expressions of the source run by a small backtracking matcher that
    follows the ECMAScript matching order (leftmost start, greedy
    quantifiers, first success wins). *)

From Stdlib Require Import List NArith ZArith Bool Lia String Ascii.
From Stdlib Require DecimalString.
Import ListNotations.

(** ** JavaScript strings

    A JS string is a sequence of UTF-16 code units; [length], [slice],
    [split] and regular expressions without the [u] flag all work on code
    units. *)

Definition jschar := N.
Definition jsstring := list jschar.

Fixpoint lit (s : string) : jsstring :=
  match s with
  | EmptyString => []
  | String a s' => N_of_ascii a :: lit s'
  end.

Local Open Scope N_scope.

Definition NL : jschar := 10.
Definition CR : jschar := 13.
Definition COLON : jschar := 58.
Definition QUOTE : jschar := 34.
Definition SLASH : jschar := 47.
Definition ELLIPSIS : jschar := 8230. (* U+2026 *)

Definition between (lo hi c : jschar) : bool := (lo <=? c) && (c <=? hi).

(** ECMAScript LineTerminator: LF, CR, LS, PS. *)
Definition isLineTerminator (c : jschar) : bool :=
  (c =? 10) || (c =? 13) || (c =? 8232) || (c =? 8233).

(** ECMAScript WhiteSpace or LineTerminator: what [\s] matches and what
    [String.prototype.trim] strips. *)
Definition isSpace (c : jschar) : bool :=
  (c =? 9) || (c =? 11) || (c =? 12) || (c =? 32) || (c =? 160) ||
  (c =? 5760) || between 8192 8202 c || (c =? 8239) || (c =? 8287) ||
  (c =? 12288) || (c =? 65279) || isLineTerminator c.

Definition isDigit (c : jschar) : bool := between 48 57 c.          (* \d *)
Definition isAlpha_ (c : jschar) : bool :=                           (* [A-Za-z_] *)
  between 65 90 c || between 97 122 c || (c =? 95).
Definition isWord (c : jschar) : bool := isAlpha_ c || isDigit c.    (* \w *)
Definition isWordDot (c : jschar) : bool := isWord c || (c =? 46).   (* [\w.] *)
Definition notNL (c : jschar) : bool := negb (c =? 10).              (* [^\n] *)
Definition notColonNL (c : jschar) : bool :=                         (* [^:\n] *)
  negb (c =? 58) && negb (c =? 10).
Definition notQuote (c : jschar) : bool := negb (c =? 34).           (* any but the double quote *)
Definition anyChar (c : jschar) : bool := true.                      (* [\s\S] *)
Definition dot (c : jschar) : bool := negb (isLineTerminator c).     (* . *)

(** ** Regular expressions

    The fragment the source uses: literal characters, one-character
    classes, greedy [*] and [+] over a class, the assertions [^] and [$],
    and capture-group parentheses. A pattern is the list of its items in
    source order. *)

Inductive item : Type :=
| Chr (c : jschar)
| Cls (p : jschar -> bool)
| Star (p : jschar -> bool)
| Plus (p : jschar -> bool)
| Bol
| Eol
| Open
| Close.

Definition regex := list item.

Definition chars (s : string) : regex := map Chr (lit s).

(** [^]: start of input, or after a line terminator under the [m] flag. *)
Definition atBol (multiline : bool) (prev : option jschar) : bool :=
  match prev with
  | None => true
  | Some c => multiline && isLineTerminator c
  end.

(** [$]: end of input, or before a line terminator under the [m] flag. *)
Definition atEol (multiline : bool) (s : jsstring) : bool :=
  match s with
  | [] => true
  | c :: _ => multiline && isLineTerminator c
  end.

(** Greedy iteration of a class: consume while the class accepts, then run
    the rest of the pattern [k]; on failure give one character back. *)
Fixpoint star (p : jschar -> bool)
    (k : option jschar -> jsstring -> option (list jsstring))
    (prev : option jschar) (s : jsstring) : option (list jsstring) :=
  match s with
  | c :: s' =>
      if p c then
        match star p k (Some c) s' with
        | Some r => Some r
        | None => k prev s
        end
      else k prev s
  | [] => k prev s
  end.

(** [run m r prev s] matches pattern [r] at the position whose remaining
    input is [s] and whose preceding character is [prev]. The result lists
    the remaining input at every group parenthesis, in pattern order (the
    positions an engine stores as capture indices). *)
Fixpoint run (m : bool) (r : regex) (prev : option jschar) (s : jsstring)
  : option (list jsstring) :=
  match r with
  | [] => Some []
  | Chr c :: r' =>
      match s with
      | x :: s' => if x =? c then run m r' (Some x) s' else None
      | [] => None
      end
  | Cls p :: r' =>
      match s with
      | x :: s' => if p x then run m r' (Some x) s' else None
      | [] => None
      end
  | Star p :: r' => star p (run m r') prev s
  | Plus p :: r' =>
      match s with
      | x :: s' => if p x then star p (run m r') (Some x) s' else None
      | [] => None
      end
  | Bol :: r' => if atBol m prev then run m r' prev s else None
  | Eol :: r' => if atEol m s then run m r' prev s else None
  | Open :: r' => option_map (cons s) (run m r' prev s)
  | Close :: r' => option_map (cons s) (run m r' prev s)
  end.

(** [RegExp.prototype.exec] of a non-global pattern: every start index from
    0 to the length, leftmost success. *)
Fixpoint execFrom (m : bool) (r : regex) (prev : option jschar) (s : jsstring)
  : option (list jsstring) :=
  match run m r prev s with
  | Some caps => Some caps
  | None =>
      match s with
      | [] => None
      | c :: s' => execFrom m r (Some c) s'
      end
  end.

Definition exec (m : bool) (r : regex) (s : jsstring) : option (list jsstring) :=
  execFrom m r None s.

Definition test (m : bool) (r : regex) (s : jsstring) : bool :=
  match exec m r s with Some _ => true | None => false end.

(** The text between two recorded positions of the same input. *)
Definition span (from to : jsstring) : jsstring :=
  firstn (List.length from - List.length to)%nat from.

(** Capture group [i] (counted from 1) of a match. *)
Definition group (i : nat) (caps : list jsstring) : jsstring :=
  span (nth (2 * (i - 1))%nat caps []) (nth (2 * (i - 1) + 1)%nat caps []).

(** ** String helpers of the JS runtime *)

(** A JS number that [Number] can return for a run of decimal digits: a
    double whose value is a natural number, or [Infinity]. *)
Inductive jsnumber : Type :=
| Fin (n : N)
| Infinity.

(** The double nearest to the natural number [n] (IEEE 754 binary64, round
    to nearest, ties to even): 53 significant bits are kept, and what rounds
    up to 2^1024 is [Infinity]. *)
Definition roundDouble (n : N) : jsnumber :=
  if n <? 2 ^ 53 then Fin n
  else
    let e := N.log2 n - 52 in
    let q := N.shiftr n e in
    let rest := n - N.shiftl q e in
    let half := N.shiftl 1 (e - 1) in
    let q' := if (half <? rest) || ((rest =? half) && N.odd q) then q + 1 else q in
    let v := N.shiftl q' e in
    if 2 ^ 1024 <=? v then Infinity else Fin v.

(** The mathematical value of a run of decimal digits. *)
Definition decimalValue (s : jsstring) : N :=
  fold_left (fun acc c => 10 * acc + (c - 48)) s 0.

(** [Number(s)] on a string of decimal digits: its value, correctly rounded
    to a double (as V8 does). *)
Definition Number (s : jsstring) : jsnumber := roundDouble (decimalValue s).

Definition digitsOf (n : N) : jsstring :=
  lit (DecimalString.NilZero.string_of_uint (N.to_uint n)).

Definition roundsTo (v y : N) : bool :=
  match roundDouble y with
  | Fin v' => v' =? v
  | Infinity => false
  end.

(** The natural number with the fewest significant digits among those that
    round to the double [v], and the nearest to [v] among these (the even
    one on a tie): tried with [k] significant digits, then [k + 1], ... *)
Fixpoint shortest (fuel : nat) (k : N) (v : N) : N :=
  match fuel with
  | O => v
  | S fuel' =>
      let dv := N.of_nat (List.length (digitsOf v)) in
      if dv <=? k then v
      else
        let scale := 10 ^ (dv - k) in
        let lo := (v / scale) * scale in
        let hi := lo + scale in
        match roundsTo v lo, roundsTo v hi with
        | true, true =>
            if v - lo <? hi - v then lo
            else if hi - v <? v - lo then hi
            else if N.even (v / scale) then lo else hi
        | true, false => lo
        | false, true => hi
        | false, false => shortest fuel' (k + 1) v
        end
  end.

Fixpoint stripZeros (revDigits : jsstring) : jsstring :=
  match revDigits with
  | 48 :: rest => stripZeros rest
  | _ => revDigits
  end.

(** [Number::toString], which a template literal applies to a number: the
    shortest digits that read back as the same double, written out in full
    below 10^21 and in exponent notation from there on. *)
Definition numberToString (x : jsnumber) : jsstring :=
  match x with
  | Infinity => lit "Infinity"
  | Fin v =>
      let y := shortest 20 1 v in
      let ds := digitsOf y in
      if y <? 10 ^ 21 then ds
      else
        let mant := rev (stripZeros (rev ds)) in
        let expo := digitsOf (N.of_nat (List.length ds) - 1) in
        match mant with
        | [] => ds
        | [d] => d :: lit "e+" ++ expo
        | d :: more => d :: 46 :: more ++ lit "e+" ++ expo
        end
  end.

(** The same for an integer such as an exit code. *)
Definition showZ (z : Z) : jsstring :=
  (if (z <? 0)%Z then lit "-" else []) ++ numberToString (Fin (Z.abs_N z)).


Fixpoint dropWhile (p : jschar -> bool) (s : jsstring) : jsstring :=
  match s with
  | c :: s' => if p c then dropWhile p s' else s
  | [] => []
  end.

(** [s.trim()] *)
Definition trim (s : jsstring) : jsstring :=
  rev (dropWhile isSpace (rev (dropWhile isSpace s))).

(** [s.split(sep)] for a one-character separator. *)
Fixpoint split (sep : jschar) (s : jsstring) : list jsstring :=
  match s with
  | [] => [[]]
  | c :: s' =>
      if c =? sep then [] :: split sep s'
      else match split sep s' with
           | l :: ls => (c :: l) :: ls
           | [] => [[c]]
           end
  end.

(** [parts.join(sep)] *)
Fixpoint join (sep : jsstring) (parts : list jsstring) : jsstring :=
  match parts with
  | [] => []
  | [x] => x
  | x :: rest => x ++ sep ++ join sep rest
  end.

(** [s.slice(0, e)]: a negative end counts from the end of the string. *)
Definition slice0 (s : jsstring) (e : Z) : jsstring :=
  let n := Z.of_nat (List.length s) in
  let to := if (e <? 0)%Z then Z.max (n + e) 0 else Z.min e n in
  firstn (Z.to_nat to) s.

(** Truthiness of a string: non-empty. *)
Definition truthy (s : jsstring) : bool :=
  match s with [] => false | _ :: _ => true end.

(** [l.trim().length > 0] *)
Definition nonBlank (l : jsstring) : bool :=
  (0 <? List.length (trim l))%nat.

(** ** The patterns of [server.ts] *)

(** The patterns are quoted with their items spaced out.

    [nodeMatch], with the [m] flag:
    ^ (?<type> [\w.]* Error ) : \s* (?<message> [^\n]+ ) \n (?<stack> [\s\S]+ ) *)
Definition nodeRe : regex :=
  [Bol; Open; Star isWordDot] ++ chars "Error" ++
  [Close; Chr COLON; Star isSpace; Open; Plus notNL; Close; Chr NL;
   Open; Plus anyChar; Close].

(** [loc]:  ( \/ [^:\n]+ ) : ( \d+ ) : ( \d+ ) *)
Definition locRe : regex :=
  [Open; Chr SLASH; Plus notColonNL; Close; Chr COLON;
   Open; Plus isDigit; Close; Chr COLON; Open; Plus isDigit; Close].

(** [pyFile]: the word File, a space, a double quote, a non-empty run
    without double quotes (group 1), a double quote, a comma, the word line
    between two spaces, and decimal digits (group 2). *)
Definition pyFile : regex :=
  chars "File " ++ [Chr QUOTE; Open; Plus notQuote; Close; Chr QUOTE] ++
  chars ", line " ++ [Open; Plus isDigit; Close].

(** The marker test, a literal: Traceback \(most recent call last\): *)
Definition tracebackRe : regex := chars "Traceback (most recent call last):".

(** [errTypeMsg] and [py], without flags:
    ^ (?<type> [A-Za-z_] [A-Za-z0-9_]* ) : \s* (?<message> .* ) $ *)
Definition pyTypeRe : regex :=
  [Bol; Open; Cls isAlpha_; Star isWord; Close; Chr COLON; Star isSpace;
   Open; Star dot; Close; Eol].

(** [node] in [summarizeStack], without flags:
    ^ (?<type> [\w.]* Error ) : \s* (?<message> .* ) $ *)
Definition nodeLineRe : regex :=
  [Bol; Open; Star isWordDot] ++ chars "Error" ++
  [Close; Chr COLON; Star isSpace; Open; Star dot; Close; Eol].

(** ** [parseError] *)

Inductive Lang : Type := node | python.

Record ErrorRecord : Type := {
  runtime : Lang;
  type : jsstring;
  message : jsstring;
  file : option jsstring;
  line : option jsnumber;
  column : option jsnumber;
  stack : jsstring
}.

(** The loop over [lines] that keeps the last [pyFile] match in the two
    variables [lastFile] and [lastLine]. *)
Definition pyFileStep (acc : option jsstring * option jsnumber) (l : jsstring)
  : option jsstring * option jsnumber :=
  match exec false pyFile l with
  | Some m => (Some (group 1 m), Some (Number (group 2 m)))
  | None => acc
  end.

Definition lastNonBlank (lines : list jsstring) : jsstring :=
  match find nonBlank (rev lines) with
  | Some l => l
  | None => []
  end.

Definition parseError (stderr : option jsstring) : option ErrorRecord :=
  match stderr with
  | None => None
  | Some [] => None
  | Some stderr =>
      match exec true nodeRe stderr with
      | Some g =>
          let stack := group 3 g in
          let loc := exec false locRe stack in
          Some {| runtime := node;
                  type := group 1 g;
                  message := group 2 g;
                  file := option_map (group 1) loc;
                  line := option_map (fun l => Number (group 2 l)) loc;
                  column := option_map (fun l => Number (group 3 l)) loc;
                  stack := stack |}
      | None =>
          if test true tracebackRe stderr then
            let lines := split NL stderr in
            let last := fold_left pyFileStep lines (None, None) in
            let lastLineText := lastNonBlank lines in
            let errTypeMsg := exec false pyTypeRe lastLineText in
            Some {| runtime := python;
                    type := match errTypeMsg with
                            | Some g => group 1 g
                            | None => lit "Error"
                            end;
                    message := match errTypeMsg with
                               | Some g => group 2 g
                               | None => lastLineText
                               end;
                    file := fst last;
                    line := snd last;
                    column := None;
                    stack := stderr |}
          else None
      end
  end.

(** ** [summarizeStack] *)

Definition summarizeStack (stack : jsstring) : jsstring :=
  let firstLine :=
    match find nonBlank (split NL stack) with
    | Some l => l
    | None => []
    end in
  let nodeM := exec false nodeLineRe firstLine in
  let py := exec false pyTypeRe firstLine in
  match nodeM with
  | Some g =>
      if truthy (group 1 g) then group 1 g ++ lit ": " ++ group 2 g
      else match py with
           | Some h =>
               if truthy (group 1 h) then group 1 h ++ lit ": " ++ group 2 h
               else if truthy firstLine then firstLine else slice0 stack 200
           | None => if truthy firstLine then firstLine else slice0 stack 200
           end
  | None =>
      match py with
      | Some h =>
          if truthy (group 1 h) then group 1 h ++ lit ": " ++ group 2 h
          else if truthy firstLine then firstLine else slice0 stack 200
      | None => if truthy firstLine then firstLine else slice0 stack 200
      end
  end.

(** ** [truncate] and [renderSummary] *)

Definition truncationMark : jsstring := NL :: ELLIPSIS :: lit "[truncated]".

Definition truncate (text : jsstring) (max : Z) : jsstring :=
  if (Z.of_nat (List.length text) <=? max)%Z then text
  else slice0 text (max - 20) ++ truncationMark.

Record Payload : Type := {
  language : Lang;
  command : jsstring;
  cwd : jsstring;
  exitCode : option Z;
  timedOut : bool;
  stdout : jsstring;
  stderr : jsstring;
  error : option ErrorRecord
}.

Definition errorParts (e : option ErrorRecord) : list jsstring :=
  match e with
  | None => []
  | Some e =>
      (lit "Error: " ++ type e ++ lit ": " ++ message e) ::
      match file e with
      | Some f =>
          if truthy f then
            [lit "File: " ++ f ++ [COLON] ++
             match line e with Some n => numberToString n | None => lit "?" end]
          else []
      | None => []
      end
  end.

(** The list [parts] that [renderSummary] builds before joining it. *)
Definition renderParts (payload : Payload) : list jsstring :=
  [lit "Command: " ++ command payload;
   lit "CWD: " ++ cwd payload;
   lit "Exit: " ++
     match exitCode payload with Some z => showZ z | None => lit "null" end ++
     (if timedOut payload then lit " (timed out)" else [])] ++
  errorParts (error payload) ++
  (if truthy (trim (stdout payload))
   then [lit "STDOUT:" ++ [NL] ++ truncate (stdout payload) 4000] else []) ++
  (if truthy (trim (stderr payload))
   then [lit "STDERR:" ++ [NL] ++ truncate (stderr payload) 4000] else []).

Definition renderSummary (payload : Payload) : jsstring :=
  join [NL] (renderParts payload).

(** ** The [debug] tool handler

    The file system, the path module, [process] and [execa] are the
    handler's environment. A call that throws is [Thrown] with the error's
    message; [try]/[catch] is [tryCatch]. *)

Inductive outcome (A : Type) : Type :=
| Ok (a : A)
| Thrown (msg : jsstring).
Arguments Ok {A} a.
Arguments Thrown {A} msg.

Definition bind {A B : Type} (x : outcome A) (f : A -> outcome B) : outcome B :=
  match x with
  | Ok a => f a
  | Thrown msg => Thrown msg
  end.

Definition tryCatch {A : Type} (body : outcome A) (handler : jsstring -> outcome A)
  : outcome A :=
  match body with
  | Ok a => Ok a
  | Thrown msg => handler msg
  end.

Record DebugArgs : Type := {
  argLanguage : Lang;
  argEntry : option jsstring;
  argArgs : option (list jsstring);
  argCwd : option jsstring;
  argTimeoutMs : option Z
}.

Record ExecaOptions : Type := {
  optCwd : jsstring;
  optReject : bool;
  optTimeout : Z;
  optEnv : list (jsstring * jsstring)
}.

Record ExecaResult : Type := {
  resStdout : jsstring;
  resStderr : jsstring;
  resExitCode : option Z;   (* a number, or undefined *)
  resTimedOut : bool
}.

Record Env : Type := {
  processCwd : jsstring;
  processNodeEnv : option jsstring;
  win32 : bool;
  pathResolve : list jsstring -> jsstring;
  pathBasename : jsstring -> jsstring;
  pathExtname : jsstring -> jsstring;
  toLowerCase : jsstring -> jsstring;
  existsSync : jsstring -> bool;
  execa : jsstring -> list jsstring -> ExecaOptions -> outcome ExecaResult
}.

Inductive ContentItem : Type :=
| TextItem (text : jsstring)
| JsonItem (payload : Payload)     (* JSON.stringify(payload, null, 2) *)
| ResourceLink (uri name description : jsstring) (mimeType : option jsstring).

Record ToolResult : Type := {
  content : list ContentItem;
  isError : bool
}.

(** What the handler did to the outside world, and what it returned. *)
Record Run (A : Type) : Type := {
  spawned : list (jsstring * list jsstring);
  result : outcome A
}.
Arguments spawned {A} r.
Arguments result {A} r.

(** [x ? f(x) : undefined] and [x && ...] on an optional string. *)
Definition given (x : option jsstring) : option jsstring :=
  match x with
  | Some s => if truthy s then Some s else None
  | None => None
  end.

Definition strEq (a b : jsstring) : bool :=
  if list_eq_dec N.eq_dec a b then true else false.

Definition pathToFileUri (env : Env) (p : jsstring) : jsstring :=
  let absolute := pathResolve env [p] in
  (if win32 env then lit "file:///" else lit "file://") ++ absolute.

Definition guessMime (env : Env) (p : jsstring) : option jsstring :=
  let ext := toLowerCase env (pathExtname env p) in
  if strEq ext (lit ".ts") then Some (lit "text/typescript")
  else if strEq ext (lit ".tsx") then Some (lit "text/tsx")
  else if strEq ext (lit ".js") then Some (lit "text/javascript")
  else if strEq ext (lit ".jsx") then Some (lit "text/jsx")
  else if strEq ext (lit ".py") then Some (lit "text/x-python")
  else if strEq ext (lit ".json") then Some (lit "application/json")
  else if strEq ext (lit ".md") then Some (lit "text/markdown")
  else None.

Definition resourceLink (env : Env) (p description : jsstring) : ContentItem :=
  ResourceLink (pathToFileUri env p)
    (if truthy (pathBasename env p) then pathBasename env p
     else pathToFileUri env p)
    description (guessMime env p).

Definition workingDir (env : Env) (a : DebugArgs) : jsstring :=
  match given (argCwd a) with
  | Some c => pathResolve env [c]
  | None => processCwd env
  end.

Definition entryPath (env : Env) (a : DebugArgs) : option jsstring :=
  match given (argEntry a) with
  | Some e => Some (pathResolve env [workingDir env a; e])
  | None => None
  end.

Definition execTimeout (a : DebugArgs) : Z :=
  match argTimeoutMs a with
  | Some t => t
  | None => 15000%Z
  end.

Definition commandOf (a : DebugArgs) : jsstring :=
  match argLanguage a with
  | node => lit "node"
  | python => lit "python3"
  end.

Definition childArgs (env : Env) (a : DebugArgs) : list jsstring :=
  match given (entryPath env a) with
  | Some p => p :: match argArgs a with Some l => l | None => [] end
  | None => [lit "-V"]
  end.

(** The [execa(command, childArgs, {...})] call, awaited. *)
Definition spawnCall (env : Env) (a : DebugArgs) : outcome ExecaResult :=
  execa env (commandOf a) (childArgs env a)
    {| optCwd := workingDir env a;
       optReject := false;
       optTimeout := execTimeout a;
       optEnv := [(lit "FORCE_COLOR", lit "0");
                  (lit "NODE_ENV",
                   match processNodeEnv env with
                   | Some v => v
                   | None => lit "production"
                   end);
                  (lit "PYTHONUNBUFFERED", lit "1")] |}.

(** The body of the [try] block once the child has settled. *)
Definition report (env : Env) (a : DebugArgs) (res : ExecaResult) : ToolResult :=
  let errorSummary := parseError (Some (resStderr res)) in
  let payload :=
    {| language := argLanguage a;
       command := join (lit " ") (commandOf a :: childArgs env a);
       cwd := workingDir env a;
       exitCode := resExitCode res;
       timedOut := resTimedOut res;
       stdout := resStdout res;
       stderr := resStderr res;
       error := errorSummary |} in
  let text := renderSummary payload in
  {| content :=
       [TextItem text; JsonItem payload] ++
       match given (entryPath env a) with
       | Some p => [resourceLink env p (lit "Program entry file")]
       | None => []
       end ++
       match given (match errorSummary with Some e => file e | None => None end) with
       | Some f => [resourceLink env f (lit "Likely error location")]
       | None => []
       end;
     isError := match resExitCode res with
                | Some z => negb (z =? 0)%Z
                | None => true
                end |}.

(** The [try]/[catch] around the spawn. *)
Definition runChild (env : Env) (a : DebugArgs) : Run ToolResult :=
  {| spawned := [(commandOf a, childArgs env a)];
     result :=
       tryCatch (bind (spawnCall env a) (fun res => Ok (report env a res)))
         (fun msg => Ok {| content := [TextItem (lit "Failed to execute: " ++ msg)];
                           isError := true |}) |}.

Definition debug (env : Env) (a : DebugArgs) : Run ToolResult :=
  match given (entryPath env a) with
  | Some p =>
      if negb (existsSync env p) then
        {| spawned := [];
           result := Ok {| content := [TextItem (lit "Entry file not found: " ++ p)];
                           isError := true |} |}
      else runChild env a
  | None => runChild env a
  end.

(** ** Vocabulary of the specification

    The shapes of text the specification talks about, stated on the text
    itself (no pattern matcher involved). *)

(** [x] occurs in [s] as a contiguous piece. *)
Definition occurs (x s : jsstring) : Prop :=
  exists a b, s = a ++ x ++ b.

(** The first character of [s], if any, is outside the class [p]. *)
Definition stopsAt (p : jschar -> bool) (s : jsstring) : Prop :=
  match s with
  | [] => True
  | c :: _ => p c = false
  end.

(** A position is a line start when nothing precedes it or the preceding
    character is a line terminator. *)
Definition lineStart (pre : jsstring) : Prop :=
  pre = [] \/ exists pre' c, pre = pre' ++ [c] /\ isLineTerminator c = true.

(** A dotted identifier ending in [Error]. *)
Definition errorId (k : jsstring) : Prop :=
  exists w, k = w ++ lit "Error" /\ forallb isWordDot w = true.

(** A simple (non-dotted) identifier. *)
Definition simpleId (k : jsstring) : Prop :=
  exists c t, k = c :: t /\ isAlpha_ c = true /\ forallb isWord t = true.

(** The whole line [l] reads [kind: msg]: an identifier, a colon, optional
    white space, and a message that runs to the end of the line. *)
Definition kindMessage (okKind : jsstring -> Prop) (l kind msg : jsstring) : Prop :=
  exists ws,
    l = kind ++ [COLON] ++ ws ++ msg /\ okKind kind /\
    forallb isSpace ws = true /\ stopsAt isSpace msg /\ forallb dot msg = true.

(** The family-A anchor as the source matches it: at a line start, an
    identifier ending in [Error], a colon, optional white space, a non-empty
    message without newline, a newline and a non-empty stack. *)
Definition anchorMatch (text pre kind ws msg stk : jsstring) : Prop :=
  text = pre ++ kind ++ [COLON] ++ ws ++ msg ++ [NL] ++ stk /\
  lineStart pre /\ errorId kind /\ forallb isSpace ws = true /\
  msg <> [] /\ forallb notNL msg = true /\ stk <> [].

Definition matchesAnchor (text : jsstring) : Prop :=
  exists pre kind ws msg stk, anchorMatch text pre kind ws msg stk.

(** The anchor that starts after [pre] is the first one of the text: no
    anchor starts earlier. *)
Definition firstAnchor (text pre : jsstring) : Prop :=
  forall pre' kind' ws' msg' stk',
    anchorMatch text pre' kind' ws' msg' stk' ->
    (List.length pre <= List.length pre')%nat.

Definition tracebackMarker : jsstring := lit "Traceback (most recent call last):".

(** The text of a location [/p:d1:d2] and what makes it well formed: a
    non-empty path tail without colon or newline, two non-empty runs of
    decimal digits. *)
Definition locText (p d1 d2 : jsstring) : jsstring :=
  SLASH :: p ++ [COLON] ++ d1 ++ [COLON] ++ d2.

Definition locOk (p d1 d2 : jsstring) : Prop :=
  p <> [] /\ forallb notColonNL p = true /\
  d1 <> [] /\ forallb isDigit d1 = true /\
  d2 <> [] /\ forallb isDigit d2 = true.

(** [s] begins with a location. *)
Definition locStarts (s : jsstring) : Prop :=
  exists p d1 d2 rest, s = locText p d1 d2 ++ rest /\ locOk p d1 d2.

(** [stk] contains a location somewhere. *)
Definition hasLoc (stk : jsstring) : Prop :=
  exists a s, stk = a ++ s /\ locStarts s.

(** The first location of [stk] is [/p:d1:d2]: none starts earlier, and the
    column takes every digit there is. *)
Definition firstLoc (stk p d1 d2 : jsstring) : Prop :=
  exists a rest,
    stk = a ++ locText p d1 d2 ++ rest /\ locOk p d1 d2 /\
    stopsAt isDigit rest /\
    forall a1 a2, a = a1 ++ a2 -> a2 <> [] ->
      ~ locStarts (a2 ++ locText p d1 d2 ++ rest).

(** The text of a traceback frame reference: the word File, a quoted path
    and a line number. *)
Definition frameText (path digits : jsstring) : jsstring :=
  lit "File " ++ [QUOTE] ++ path ++ [QUOTE] ++ lit ", line " ++ digits.

Definition frameOk (path digits : jsstring) : Prop :=
  path <> [] /\ forallb notQuote path = true /\
  digits <> [] /\ forallb isDigit digits = true.

Definition frameStarts (s : jsstring) : Prop :=
  exists path digits rest, s = frameText path digits ++ rest /\ frameOk path digits.

(** The line [l] contains a frame reference somewhere. *)
Definition hasFrame (l : jsstring) : Prop :=
  exists a s, l = a ++ s /\ frameStarts s.

(** The first frame reference of the line [l]. *)
Definition firstFrame (l path digits : jsstring) : Prop :=
  exists a rest,
    l = a ++ frameText path digits ++ rest /\ frameOk path digits /\
    stopsAt isDigit rest /\
    forall a1 a2, a = a1 ++ a2 -> a2 <> [] ->
      ~ frameStarts (a2 ++ frameText path digits ++ rest).

(** A line with nothing but white space. *)
Definition blank (l : jsstring) : Prop := forallb isSpace l = true.

(** [l] is the last line of [text] that is not blank. *)
Definition lastNonBlankLine (text l : jsstring) : Prop :=
  exists before after,
    split NL text = before ++ l :: after /\ ~ blank l /\ Forall blank after.

(** [l] is the first line of [text] that is not blank. *)
Definition firstNonBlankLine (text l : jsstring) : Prop :=
  exists before after,
    split NL text = before ++ l :: after /\ ~ blank l /\ Forall blank before.

(** The handler's fail-fast case: an entry path is given and no file is
    there. *)
Definition entryMissing (env : Env) (a : DebugArgs) : Prop :=
  exists p, given (entryPath env a) = Some p /\ existsSync env p = false.

Definition startsWith (pre s : jsstring) : Prop := exists rest, s = pre ++ rest.

(** ** Bookkeeping for the matcher *)

(** The character before the position reached after consuming [a]. *)
Definition advance (prev : option jschar) (a : jsstring) : option jschar :=
  fold_left (fun _ c => Some c) a prev.

(** The anchor pattern after its identifier. *)
Definition nodeTail : regex :=
  [Close; Chr COLON; Star isSpace; Open; Plus notNL; Close; Chr NL;
   Open; Plus anyChar; Close].

(** What follows the identifier in the two one-line patterns. *)
Definition lineTail : regex :=
  [Close; Chr COLON; Star isSpace; Open; Star dot; Close; Eol].

(** Closes an equation between two bracketings of the same concatenation. *)
Ltac assoc_eq := repeat (simpl; rewrite <- app_assoc); simpl; reflexivity.

(** ** The [debug_suggest_fix] tool handler *)

(** [xs.filter(Boolean)] on an array of strings and [undefined]: the
    non-empty strings stay. *)
Fixpoint filterBoolean (xs : list (option jsstring)) : list jsstring :=
  match xs with
  | [] => []
  | Some s :: rest => if truthy s then s :: filterBoolean rest else filterBoolean rest
  | None :: rest => filterBoolean rest
  end.

Definition closingInstruction : jsstring :=
  lit "Provide a minimal, safe edit that resolves the root cause.".

(** The [text] the handler builds from [stack] and the optional
    [fileHints]. *)
Definition suggestFixText (stack : jsstring) (fileHints : option (list jsstring))
  : jsstring :=
  let summary := summarizeStack stack in
  let hints :=
    join [NL] (map (fun p => lit "- " ++ p)
                   (match fileHints with Some l => l | None => [] end)) in
  join [NL; NL]
    (filterBoolean
       [Some (lit "Stack summary:" ++ [NL] ++ summary);
        if truthy hints then Some (lit "Likely files:" ++ [NL] ++ hints) else None;
        Some closingInstruction]).

(** The handler's result: one text item and no [isError] field. *)
Definition debug_suggest_fix (stack : jsstring) (fileHints : option (list jsstring))
  : list ContentItem :=
  [TextItem (suggestFixText stack fileHints)].

(** [text] is one line, with or without its final newline. *)
Definition singleLine (text : jsstring) : Prop :=
  exists l, ~ In NL l /\ (text = l \/ text = l ++ [NL]).

(** * Properties *)

(** ** Blank text and [trim] *)

Lemma truthy_rev (s : jsstring) : truthy (rev s) = truthy s.
Proof.
  destruct s as [|c s]; [reflexivity|].
  simpl. destruct (rev s); reflexivity.
Qed.

Lemma dropWhile_truthy (p : jschar -> bool) (s : jsstring) :
  truthy (dropWhile p s) = true <-> exists c, In c s /\ p c = false.
Proof.
  induction s as [|c s IH]; simpl.
  - split; [discriminate | intros [c [[] _]]].
  - destruct (p c) eqn:E.
    + rewrite IH. split.
      * intros [d [Hd Hp]]. exists d. auto.
      * intros [d [[->|Hd] Hp]]; [congruence | exists d; auto].
    + split; [intros _; exists c; auto | reflexivity].
Qed.

Lemma dropWhile_incl (p : jschar -> bool) (s : jsstring) (c : jschar) :
  In c (dropWhile p s) -> In c s.
Proof.
  induction s as [|d s IH]; simpl; [tauto|].
  destruct (p d); simpl; tauto.
Qed.

Lemma dropWhile_head (p : jschar -> bool) (s : jsstring) c t :
  dropWhile p s = c :: t -> p c = false.
Proof.
  induction s as [|d s IH]; simpl; [discriminate|].
  destruct (p d) eqn:E; [assumption|]. intros H; injection H as -> _. exact E.
Qed.

(** A string survives [trim] exactly when it has a character that is not
    white space. *)
Lemma trim_truthy (s : jsstring) :
  truthy (trim s) = true <-> exists c, In c s /\ isSpace c = false.
Proof.
  unfold trim. rewrite truthy_rev, dropWhile_truthy. split.
  - intros [c [Hc Hp]]. exists c. split; [|exact Hp].
    apply dropWhile_incl with (p := isSpace). now apply in_rev.
  - intros H. apply dropWhile_truthy in H.
    destruct (dropWhile isSpace s) as [|c t] eqn:E; [discriminate|].
    exists c. split; [apply in_rev; rewrite rev_involutive; now left|].
    eapply dropWhile_head; eassumption.
Qed.

Lemma nonBlank_truthy (s : jsstring) : nonBlank s = truthy (trim s).
Proof. unfold nonBlank. destruct (trim s); reflexivity. Qed.

Lemma nonBlank_spec (s : jsstring) :
  nonBlank s = true <-> exists c, In c s /\ isSpace c = false.
Proof. rewrite nonBlank_truthy. apply trim_truthy. Qed.

(** ** List facts used throughout *)

Lemma stopsAt_split (p : jschar -> bool) (s : jsstring) :
  exists a b, s = a ++ b /\ forallb p a = true /\ stopsAt p b.
Proof.
  induction s as [|c s (a & b & -> & Ha & Hb)].
  - exists [], []. simpl. auto.
  - destruct (p c) eqn:E.
    + exists (c :: a), b. simpl. rewrite E, Ha. auto.
    + exists [], (c :: a ++ b). simpl. auto.
Qed.

Lemma app_longer (a b a' b' : jsstring) :
  a ++ b = a' ++ b' -> (List.length a < List.length a')%nat ->
  exists x, x <> [] /\ a' = a ++ x /\ b = x ++ b'.
Proof.
  revert a'. induction a as [|c a IH]; intros a' H L.
  - simpl in *. exists a'. destruct a'; [simpl in L; lia|]. repeat split; auto. discriminate.
  - destruct a' as [|c' a']; [simpl in L; lia|].
    simpl in H. injection H as -> H. simpl in L.
    destruct (IH a' H ltac:(lia)) as (x & Hx & -> & ->).
    exists x. auto.
Qed.

Lemma stopsAt_no_longer (p : jschar -> bool) (a b a' b' : jsstring) :
  stopsAt p b -> a ++ b = a' ++ b' -> (List.length a < List.length a')%nat ->
  forallb p a' = true -> False.
Proof.
  intros Hb H L Ha'.
  destruct (app_longer _ _ _ _ H L) as (x & Hx & -> & ->).
  destruct x as [|c x]; [congruence|].
  rewrite forallb_app in Ha'. simpl in *. rewrite Hb in Ha'.
  rewrite andb_false_r in Ha'. discriminate.
Qed.

Lemma span_app (a b : jsstring) : span (a ++ b) b = a.
Proof.
  unfold span. rewrite length_app.
  replace (List.length a + List.length b - List.length b)%nat with (List.length a) by lia.
  rewrite firstn_app, Nat.sub_diag, firstn_all. simpl. apply app_nil_r.
Qed.

(** ** The matcher, item by item *)

Lemma star_none p k prev s :
  (forall a b, s = a ++ b -> forallb p a = true -> k (advance prev a) b = None) ->
  star p k prev s = None.
Proof.
  revert prev. induction s as [|c s IH]; intros prev H; simpl.
  - apply (H [] []); reflexivity.
  - destruct (p c) eqn:E; [|apply (H [] (c :: s)); reflexivity].
    rewrite IH; [apply (H [] (c :: s)); reflexivity|].
    intros a b -> Ha. apply (H (c :: a) b); [reflexivity|]. simpl. now rewrite E.
Qed.

(** Greedy order: [star] returns the result of the longest run of class
    characters after which the rest of the pattern succeeds. *)
Lemma star_first p k prev a b g :
  forallb p a = true -> k (advance prev a) b = Some g ->
  (forall a' b', a ++ b = a' ++ b' -> (List.length a < List.length a')%nat ->
     forallb p a' = true -> k (advance prev a') b' = None) ->
  star p k prev (a ++ b) = Some g.
Proof.
  revert prev. induction a as [|c a IH]; intros prev Ha Hk Hl.
  - simpl in *. destruct b as [|c b]; [exact Hk|]. simpl.
    destruct (p c) eqn:E; [|exact Hk].
    rewrite star_none; [exact Hk|].
    intros a' b' -> Ha'. apply (Hl (c :: a') b'); simpl; [reflexivity|lia|].
    now rewrite E.
  - simpl in Ha. apply andb_prop in Ha as [E Ha]. simpl. rewrite E.
    rewrite (IH (Some c) Ha Hk); [reflexivity|].
    intros a' b' H L Ha'. apply (Hl (c :: a') b'); simpl; [now rewrite H|lia|].
    now rewrite E.
Qed.

Lemma star_greedy p k prev a b g :
  forallb p a = true -> stopsAt p b -> k (advance prev a) b = Some g ->
  star p k prev (a ++ b) = Some g.
Proof.
  intros Ha Hb Hk. apply star_first; auto.
  intros a' b' H L Ha'. exfalso. eapply stopsAt_no_longer; eassumption.
Qed.

Lemma star_none_elim p k prev s :
  star p k prev s = None ->
  forall a b, s = a ++ b -> forallb p a = true -> k (advance prev a) b = None.
Proof.
  revert prev. induction s as [|c s IH]; intros prev H a b E Ha.
  - destruct a; [|discriminate]. destruct b; [|discriminate]. exact H.
  - simpl in H. destruct a as [|x a].
    + simpl in E. subst b. simpl.
      destruct (p c); [|exact H]. destruct (star p k (Some c) s); [discriminate|exact H].
    + simpl in E. injection E as -> ->. simpl in Ha. apply andb_prop in Ha as [Hx Ha].
      rewrite Hx in H. destruct (star p k (Some x) (a ++ b)) eqn:S; [discriminate|].
      apply (IH _ S a b); auto.
Qed.

(** The converse of [star_first]: the split that [star] settles on is the
    longest one that lets the rest of the pattern succeed. *)
Lemma star_elim_first p k prev s g :
  star p k prev s = Some g ->
  exists a b, s = a ++ b /\ forallb p a = true /\ k (advance prev a) b = Some g /\
    forall a' b', s = a' ++ b' -> (List.length a < List.length a')%nat ->
      forallb p a' = true -> k (advance prev a') b' = None.
Proof.
  revert prev. induction s as [|c s IH]; intros prev H; simpl in H.
  - exists [], []. repeat split; auto.
    intros a' b' E L. destruct a'; [simpl in L; lia | discriminate].
  - destruct (p c) eqn:Pc.
    + destruct (star p k (Some c) s) as [g'|] eqn:S.
      * injection H as ->. destruct (IH _ S) as (a & b & -> & Ha & Hk & Hl).
        exists (c :: a), b. simpl. rewrite Pc. repeat split; auto.
        intros a' b' E L Ha'. destruct a' as [|x a']; [simpl in L; lia|].
        simpl in E. injection E as <- E. simpl in Ha'. apply andb_prop in Ha' as [_ Ha'].
        apply (Hl a' b'); auto. simpl in L. lia.
      * exists [], (c :: s). repeat split; auto.
        intros a' b' E L Ha'. destruct a' as [|x a']; [simpl in L; lia|].
        simpl in E. injection E as <- ->. simpl in Ha'. apply andb_prop in Ha' as [_ Ha'].
        apply (star_none_elim _ _ _ _ S a' b'); auto.
    + exists [], (c :: s). repeat split; auto.
      intros a' b' E L Ha'. destruct a' as [|x a']; [simpl in L; lia|].
      simpl in E. injection E as <- ->. simpl in Ha'. rewrite Pc in Ha'. discriminate.
Qed.

Section Items.
Variable m : bool.
Variables (r : regex) (prev : option jschar) (s : jsstring) (g : list jsstring).

Lemma run_Chr_elim c :
  run m (Chr c :: r) prev s = Some g ->
  exists s', s = c :: s' /\ run m r (Some c) s' = Some g.
Proof.
  simpl. destruct s as [|x s']; [discriminate|].
  destruct (N.eqb_spec x c); [subst; eauto | discriminate].
Qed.

Lemma run_Cls_elim p :
  run m (Cls p :: r) prev s = Some g ->
  exists x s', s = x :: s' /\ p x = true /\ run m r (Some x) s' = Some g.
Proof.
  simpl. destruct s as [|x s']; [discriminate|].
  destruct (p x) eqn:E; [eauto | discriminate].
Qed.

Lemma run_Star_elim p :
  run m (Star p :: r) prev s = Some g ->
  exists a b, s = a ++ b /\ forallb p a = true /\
    run m r (advance prev a) b = Some g /\
    forall a' b', s = a' ++ b' -> (List.length a < List.length a')%nat ->
      forallb p a' = true -> run m r (advance prev a') b' = None.
Proof. apply star_elim_first. Qed.

Lemma run_Plus_elim p :
  run m (Plus p :: r) prev s = Some g ->
  exists a b, s = a ++ b /\ a <> [] /\ forallb p a = true /\
    run m r (advance prev a) b = Some g /\
    forall a' b', s = a' ++ b' -> (List.length a < List.length a')%nat ->
      forallb p a' = true -> run m r (advance prev a') b' = None.
Proof.
  simpl. destruct s as [|x s']; [discriminate|].
  destruct (p x) eqn:E; [|discriminate]. intros H.
  destruct (star_elim_first _ _ _ _ _ H) as (a & b & -> & Ha & Hk & Hl).
  exists (x :: a), b. simpl. rewrite E. repeat split; auto; [discriminate|].
  intros a' b' Eq L Ha'. destruct a' as [|y a']; [simpl in L; lia|].
  simpl in Eq. injection Eq as <- Eq. simpl in Ha'. apply andb_prop in Ha' as [_ Ha'].
  apply (Hl a' b'); auto. simpl in L. lia.
Qed.

Lemma run_Bol_elim :
  run m (Bol :: r) prev s = Some g ->
  atBol m prev = true /\ run m r prev s = Some g.
Proof. simpl. destruct (atBol m prev); [auto | discriminate]. Qed.

Lemma run_Eol_elim :
  run m (Eol :: r) prev s = Some g ->
  atEol m s = true /\ run m r prev s = Some g.
Proof. simpl. destruct (atEol m s); [auto | discriminate]. Qed.

Lemma run_Open_elim :
  run m (Open :: r) prev s = Some g ->
  exists g', g = s :: g' /\ run m r prev s = Some g'.
Proof.
  simpl. destruct (run m r prev s) as [g'|]; [|discriminate].
  simpl. intros H. injection H as <-. eauto.
Qed.

Lemma run_Close_elim :
  run m (Close :: r) prev s = Some g ->
  exists g', g = s :: g' /\ run m r prev s = Some g'.
Proof. apply run_Open_elim. Qed.

Lemma run_nil_elim : run m [] prev s = Some g -> g = [].
Proof. simpl. congruence. Qed.

End Items.

Lemma run_chars_elim m r l prev s g :
  run m (map Chr l ++ r) prev s = Some g ->
  exists s', s = l ++ s' /\ run m r (advance prev l) s' = Some g.
Proof.
  revert prev s. induction l as [|c l IH]; intros prev s H.
  - exists s. auto.
  - simpl map in H. simpl app in H. apply run_Chr_elim in H as (s' & -> & H).
    destruct (IH _ _ H) as (s'' & -> & H'). exists s''. auto.
Qed.

Section Intro.
Variable m : bool.
Variables (r : regex) (prev : option jschar).

Lemma run_Chr_intro c s : run m (Chr c :: r) prev (c :: s) = run m r (Some c) s.
Proof. simpl. now rewrite N.eqb_refl. Qed.

Lemma run_Cls_intro p x s :
  p x = true -> run m (Cls p :: r) prev (x :: s) = run m r (Some x) s.
Proof. intros H. simpl. now rewrite H. Qed.

Lemma run_Star_first p a b g :
  forallb p a = true -> run m r (advance prev a) b = Some g ->
  (forall a' b', a ++ b = a' ++ b' -> (List.length a < List.length a')%nat ->
     forallb p a' = true -> run m r (advance prev a') b' = None) ->
  run m (Star p :: r) prev (a ++ b) = Some g.
Proof. apply star_first. Qed.

Lemma run_Star_greedy p a b g :
  forallb p a = true -> stopsAt p b -> run m r (advance prev a) b = Some g ->
  run m (Star p :: r) prev (a ++ b) = Some g.
Proof. apply star_greedy. Qed.

Lemma run_Plus_greedy p a b g :
  a <> [] -> forallb p a = true -> stopsAt p b ->
  run m r (advance prev a) b = Some g ->
  run m (Plus p :: r) prev (a ++ b) = Some g.
Proof.
  intros Hne Ha Hb Hk. destruct a as [|x a]; [congruence|].
  simpl in Ha. apply andb_prop in Ha as [Hx Ha]. simpl. rewrite Hx.
  apply star_greedy; auto.
Qed.

Lemma run_Open_intro s g :
  run m r prev s = Some g -> run m (Open :: r) prev s = Some (s :: g).
Proof. intros H. simpl. now rewrite H. Qed.

Lemma run_Close_intro s g :
  run m r prev s = Some g -> run m (Close :: r) prev s = Some (s :: g).
Proof. apply run_Open_intro. Qed.
End Intro.

Lemma run_chars_intro m r l prev s :
  run m (map Chr l ++ r) prev (l ++ s) = run m r (advance prev l) s.
Proof.
  revert prev. induction l as [|c l IH]; intros prev; [reflexivity|].
  simpl map. simpl app. rewrite run_Chr_intro. apply IH.
Qed.

(** ** [exec]: the leftmost start that matches *)

Lemma execFrom_elim m r prev s g :
  execFrom m r prev s = Some g ->
  exists a b, s = a ++ b /\ run m r (advance prev a) b = Some g /\
    forall a1 a2, a = a1 ++ a2 -> a2 <> [] ->
      run m r (advance prev a1) (a2 ++ b) = None.
Proof.
  revert prev. induction s as [|c s IH]; intros prev H; simpl in H.
  - destruct (run m r prev []) eqn:R; [|discriminate]. injection H as ->.
    exists [], []. repeat split; auto.
    intros a1 a2 E. destruct a1; destruct a2; try discriminate. congruence.
  - destruct (run m r prev (c :: s)) eqn:R.
    + injection H as ->. exists [], (c :: s). repeat split; auto.
      intros a1 a2 E. destruct a1; destruct a2; try discriminate. congruence.
    + destruct (IH _ H) as (a & b & -> & Hr & Hn).
      exists (c :: a), b. repeat split; auto.
      intros a1 a2 E Hne. destruct a1 as [|x a1].
      * simpl in E. subst a2. exact R.
      * simpl in E. injection E as <- ->. apply (Hn a1 a2); auto.
Qed.

Lemma execFrom_none m r prev s :
  (forall a b, s = a ++ b -> run m r (advance prev a) b = None) ->
  execFrom m r prev s = None.
Proof.
  revert prev. induction s as [|c s IH]; intros prev H; simpl.
  - pose proof (H [] [] eq_refl) as R. change (advance prev []) with prev in R.
    now rewrite R.
  - pose proof (H [] (c :: s) eq_refl) as R. change (advance prev []) with prev in R.
    rewrite R. apply IH.
    intros a b ->. apply (H (c :: a) b). reflexivity.
Qed.

Lemma execFrom_intro m r prev a b g :
  run m r (advance prev a) b = Some g ->
  (forall a1 a2, a = a1 ++ a2 -> a2 <> [] ->
     run m r (advance prev a1) (a2 ++ b) = None) ->
  execFrom m r prev (a ++ b) = Some g.
Proof.
  revert prev. induction a as [|c a IH]; intros prev Hr Hn.
  - change (advance prev []) with prev in Hr. simpl app.
    destruct b; simpl; now rewrite Hr.
  - simpl. pose proof (Hn [] (c :: a) eq_refl ltac:(discriminate)) as R.
    change (advance prev []) with prev in R. simpl in R. rewrite R.
    apply IH; [exact Hr|]. intros a1 a2 -> Hne. apply (Hn (c :: a1) a2); auto.
Qed.

Lemma execFrom_found m r prev a b g :
  run m r (advance prev a) b = Some g ->
  exists g', execFrom m r prev (a ++ b) = Some g'.
Proof.
  revert prev. induction a as [|c a IH]; intros prev Hr.
  - change (advance prev []) with prev in Hr. simpl app.
    exists g. destruct b; simpl; now rewrite Hr.
  - simpl. destruct (run m r prev (c :: a ++ b)); eauto.
Qed.

Lemma atBol_lineStart pre :
  atBol true (advance None pre) = true <-> lineStart pre.
Proof.
  unfold lineStart. destruct pre as [|c pre] using rev_ind.
  - simpl. split; auto.
  - unfold advance. rewrite fold_left_app. simpl. split.
    + intros H. right. eauto.
    + intros [H | (pre' & c' & E & H)].
      * destruct pre; discriminate.
      * apply app_inj_tail in E as [_ <-]. exact H.
Qed.

(** ** The family-A anchor pattern *)

Lemma nodeRe_items :
  nodeRe = Bol :: Open :: Star isWordDot :: (map Chr (lit "Error") ++ nodeTail).
Proof. reflexivity. Qed.

Lemma run_Close_last m prev s : run m [Close] prev s = Some [s].
Proof. reflexivity. Qed.

Lemma plus_any_all m prev a b g :
  run m [Close] (advance prev a) b = Some g ->
  (forall a' b', a ++ b = a' ++ b' -> (List.length a < List.length a')%nat ->
     forallb anyChar a' = true -> run m [Close] (advance prev a') b' = None) ->
  b = [].
Proof.
  intros _ Hl. destruct b as [|c b]; [reflexivity|].
  specialize (Hl (a ++ c :: b) []). rewrite app_nil_r in Hl.
  rewrite run_Close_last in Hl. 
  assert (forallb anyChar (a ++ c :: b) = true) as F.
  { apply forallb_forall. reflexivity. }
  specialize (Hl eq_refl). rewrite length_app in Hl. simpl in Hl.
  specialize (Hl ltac:(lia) F). discriminate.
Qed.

Lemma nodeTail_elim prev s g :
  run true nodeTail prev s = Some g ->
  exists ws msg stk,
    s = [COLON] ++ ws ++ msg ++ [NL] ++ stk /\
    forallb isSpace ws = true /\ msg <> [] /\ forallb notNL msg = true /\
    stk <> [] /\
    g = [s; msg ++ [NL] ++ stk; [NL] ++ stk; stk; []].
Proof.
  unfold nodeTail. intros H.
  apply run_Close_elim in H as (g1 & -> & H).
  apply run_Chr_elim in H as (s1 & -> & H).
  apply run_Star_elim in H as (ws & s2 & -> & Hws & H & _).
  apply run_Open_elim in H as (g2 & -> & H).
  apply run_Plus_elim in H as (msg & s3 & -> & Hne & Hmsg & H & _).
  apply run_Close_elim in H as (g3 & -> & H).
  apply run_Chr_elim in H as (s4 & -> & H).
  apply run_Open_elim in H as (g4 & -> & H).
  apply run_Plus_elim in H as (stk & s5 & -> & Hsne & _ & H & Hl).
  pose proof (plus_any_all _ _ _ _ _ H Hl) as ->.
  apply run_Close_elim in H as (g5 & -> & H). apply run_nil_elim in H as ->.
  rewrite app_nil_r.
  exists ws, msg, stk. repeat split; auto.
Qed.

Lemma span_nil (a : jsstring) : span a [] = a.
Proof. unfold span. simpl. rewrite Nat.sub_0_r. apply firstn_all. Qed.

Lemma group1_app a b g : group 1 ((a ++ b) :: b :: g) = a.
Proof. apply span_app. Qed.

Lemma group2_app x y a b g : group 2 (x :: y :: (a ++ b) :: b :: g) = a.
Proof. apply span_app. Qed.

Lemma group3_app x y z t a b g : group 3 (x :: y :: z :: t :: (a ++ b) :: b :: g) = a.
Proof. apply span_app. Qed.

Lemma nodeRe_elim prev s g :
  run true nodeRe prev s = Some g ->
  atBol true prev = true /\
  exists w ws msg stk,
    s = (w ++ lit "Error") ++ [COLON] ++ ws ++ msg ++ [NL] ++ stk /\
    forallb isWordDot w = true /\ forallb isSpace ws = true /\
    msg <> [] /\ forallb notNL msg = true /\ stk <> [] /\
    group 1 g = w ++ lit "Error" /\ group 2 g = msg /\ group 3 g = stk.
Proof.
  rewrite nodeRe_items. intros H.
  apply run_Bol_elim in H as (Hb & H). split; [exact Hb|].
  apply run_Open_elim in H as (g1 & -> & H).
  apply run_Star_elim in H as (w & s1 & -> & Hw & H & _).
  apply run_chars_elim in H as (s2 & -> & H).
  apply nodeTail_elim in H as (ws & msg & stk & E & Hws & Hne & Hmsg & Hs & ->).
  exists w, ws, msg, stk. repeat split; auto.
  - rewrite E, <- app_assoc. reflexivity.
  - rewrite app_assoc. apply group1_app.
  - apply (group2_app _ _ msg).
  - pose proof (group3_app (w ++ lit "Error" ++ s2) s2 (msg ++ [NL] ++ stk) ([NL] ++ stk) stk [] []) as G.
    rewrite app_nil_r in G. exact G.
Qed.

Lemma run_Bol_intro m r prev s :
  atBol m prev = true -> run m (Bol :: r) prev s = run m r prev s.
Proof. intros H. simpl. now rewrite H. Qed.

Lemma run_Plus_all m r prev p a g :
  a <> [] -> forallb p a = true -> run m r (advance prev a) [] = Some g ->
  run m (Plus p :: r) prev a = Some g.
Proof.
  intros. rewrite <- (app_nil_r a). apply run_Plus_greedy; simpl; auto.
Qed.

Lemma run_Star_all m r prev p a g :
  forallb p a = true -> run m r (advance prev a) [] = Some g ->
  run m (Star p :: r) prev a = Some g.
Proof.
  intros. rewrite <- (app_nil_r a). apply run_Star_greedy; simpl; auto.
Qed.

Lemma stopsAt_app p a b : a <> [] -> stopsAt p a -> stopsAt p (a ++ b).
Proof. destruct a; [congruence | auto]. Qed.

Lemma nodeTail_intro prev ws msg stk :
  forallb isSpace ws = true -> stopsAt isSpace msg -> msg <> [] ->
  forallb notNL msg = true -> stk <> [] ->
  let s := [COLON] ++ ws ++ msg ++ [NL] ++ stk in
  run true nodeTail prev s = Some [s; msg ++ [NL] ++ stk; [NL] ++ stk; stk; []].
Proof.
  intros Hws Hstop Hne Hmsg Hs s. unfold nodeTail.
  apply run_Close_intro. subst s. simpl app at 1. rewrite run_Chr_intro.
  apply run_Star_greedy; [exact Hws | now apply stopsAt_app |].
  apply run_Open_intro.
  apply run_Plus_greedy; [exact Hne | exact Hmsg | reflexivity |].
  apply run_Close_intro. simpl app at 1. rewrite run_Chr_intro.
  apply run_Open_intro.
  apply run_Plus_all; [exact Hs | apply forallb_forall; reflexivity |].
  reflexivity.
Qed.

(** Giving back characters of the identifier never lets [Error:] match
    earlier: the colon ends the run of identifier characters. *)
Lemma error_backtrack m r q x b' T :
  x <> [] -> lit "Error" ++ COLON :: T = x ++ b' ->
  forallb isWordDot x = true ->
  run m (map Chr (lit "Error") ++ r) q b' = None.
Proof.
  intros Hne E Hx.
  destruct x as [|x1 [|x2 [|x3 [|x4 [|x5 [|x6 x]]]]]]; [congruence|..];
    simpl in E; injection E; intros; subst; try reflexivity.
  simpl in Hx. discriminate.
Qed.

Lemma nodeRe_intro prev w ws msg stk :
  atBol true prev = true -> forallb isWordDot w = true ->
  forallb isSpace ws = true -> stopsAt isSpace msg -> msg <> [] ->
  forallb notNL msg = true -> stk <> [] ->
  exists g,
    run true nodeRe prev (w ++ lit "Error" ++ [COLON] ++ ws ++ msg ++ [NL] ++ stk) = Some g /\
    group 1 g = w ++ lit "Error" /\ group 2 g = msg /\ group 3 g = stk.
Proof.
  intros Hb Hw Hws Hstop Hne Hmsg Hs.
  pose proof (nodeTail_intro (advance (advance prev w) (lit "Error")) ws msg stk
                Hws Hstop Hne Hmsg Hs) as HT. cbv zeta in HT.
  set (t := [COLON] ++ ws ++ msg ++ [NL] ++ stk) in *.
  eexists. split.
  - rewrite nodeRe_items, run_Bol_intro by exact Hb.
    apply run_Open_intro. apply run_Star_first; [exact Hw | |].
    + rewrite run_chars_intro. exact HT.
    + intros a' b' E L Ha'.
      destruct (app_longer _ _ _ _ E L) as (x & Hx & -> & E').
      rewrite forallb_app in Ha'. apply andb_prop in Ha' as [_ Ha'].
      eapply error_backtrack; [exact Hx | exact E' | exact Ha'].
  - repeat split.
    + rewrite app_assoc. apply group1_app.
    + apply (group2_app _ _ msg).
    + pose proof (group3_app (w ++ lit "Error" ++ t) t (msg ++ [NL] ++ stk)
                    ([NL] ++ stk) stk [] []) as G.
      rewrite app_nil_r in G. exact G.
Qed.

(** ** The location pattern *)

Lemma plus_last_stops m prev p a b :
  (forall a' b', a ++ b = a' ++ b' -> (List.length a < List.length a')%nat ->
     forallb p a' = true -> run m [Close] (advance prev a') b' = None) ->
  forallb p a = true -> stopsAt p b.
Proof.
  intros Hl Ha. destruct b as [|c b]; [exact I|]. simpl.
  destruct (p c) eqn:E; [|reflexivity].
  specialize (Hl (a ++ [c]) b). rewrite <- app_assoc in Hl.
  specialize (Hl eq_refl). rewrite length_app in Hl. simpl in Hl.
  rewrite forallb_app in Hl. simpl in Hl. rewrite Ha, E in Hl.
  specialize (Hl ltac:(lia) eq_refl). discriminate.
Qed.

Lemma locRe_elim prev s g :
  run false locRe prev s = Some g ->
  exists p d1 d2 rest,
    s = locText p d1 d2 ++ rest /\ locOk p d1 d2 /\ stopsAt isDigit rest /\
    group 1 g = SLASH :: p /\ group 2 g = d1 /\ group 3 g = d2.
Proof.
  unfold locRe. intros H.
  apply run_Open_elim in H as (g1 & -> & H).
  apply run_Chr_elim in H as (s1 & -> & H).
  apply run_Plus_elim in H as (p & s2 & -> & Hp & Fp & H & _).
  apply run_Close_elim in H as (g2 & -> & H).
  apply run_Chr_elim in H as (s3 & -> & H).
  apply run_Open_elim in H as (g3 & -> & H).
  apply run_Plus_elim in H as (d1 & s4 & -> & Hd1 & Fd1 & H & _).
  apply run_Close_elim in H as (g4 & -> & H).
  apply run_Chr_elim in H as (s5 & -> & H).
  apply run_Open_elim in H as (g5 & -> & H).
  apply run_Plus_elim in H as (d2 & rest & -> & Hd2 & Fd2 & H & Hl).
  pose proof (plus_last_stops _ _ _ _ _ Hl Fd2) as Hstop.
  apply run_Close_elim in H as (g6 & -> & H). apply run_nil_elim in H as ->.
  exists p, d1, d2, rest. repeat split; auto.
  - unfold locText. assoc_eq.
  - apply (span_app (SLASH :: p)).
  - apply (group2_app _ _ d1).
  - apply (group3_app _ _ _ _ d2).
Qed.

Lemma locRe_intro prev p d1 d2 rest :
  locOk p d1 d2 -> stopsAt isDigit rest ->
  exists g,
    run false locRe prev (locText p d1 d2 ++ rest) = Some g /\
    group 1 g = SLASH :: p /\ group 2 g = d1 /\ group 3 g = d2.
Proof.
  intros (Hp & Fp & Hd1 & Fd1 & Hd2 & Fd2) Hstop.
  assert (locText p d1 d2 ++ rest =
          SLASH :: p ++ COLON :: d1 ++ COLON :: d2 ++ rest) as ->.
  { unfold locText. assoc_eq. }
  eexists. split.
  - unfold locRe. apply run_Open_intro. rewrite run_Chr_intro.
    apply run_Plus_greedy; [exact Hp | exact Fp | reflexivity |].
    apply run_Close_intro. rewrite run_Chr_intro. apply run_Open_intro.
    apply run_Plus_greedy; [exact Hd1 | exact Fd1 | reflexivity |].
    apply run_Close_intro. rewrite run_Chr_intro. apply run_Open_intro.
    apply run_Plus_greedy; [exact Hd2 | exact Fd2 | exact Hstop |].
    reflexivity.
  - repeat split.
    + apply (span_app (SLASH :: p)).
    + apply (group2_app _ _ d1).
    + apply (group3_app _ _ _ _ d2).
Qed.

(** A location that starts the text can always take every digit of its
    column. *)
Lemma locStarts_maximal s :
  locStarts s ->
  exists p d1 d2 rest,
    s = locText p d1 d2 ++ rest /\ locOk p d1 d2 /\ stopsAt isDigit rest.
Proof.
  intros (p & d1 & d2 & rest & -> & Hp & Fp & Hd1 & Fd1 & Hd2 & Fd2).
  destruct (stopsAt_split isDigit rest) as (e & rest' & -> & He & Hstop).
  exists p, d1, (d2 ++ e), rest'. repeat split; auto.
  - unfold locText. assoc_eq.
  - destruct d2; [congruence | discriminate].
  - rewrite forallb_app, Fd2, He. reflexivity.
Qed.

Lemma locRe_complete prev s :
  locStarts s -> exists g, run false locRe prev s = Some g.
Proof.
  intros H. destruct (locStarts_maximal _ H) as (p & d1 & d2 & rest & -> & Hok & Hstop).
  destruct (locRe_intro prev p d1 d2 rest Hok Hstop) as (g & Hg & _). eauto.
Qed.

Lemma locRe_sound prev s g :
  run false locRe prev s = Some g -> locStarts s.
Proof.
  intros H. apply locRe_elim in H as (p & d1 & d2 & rest & -> & Hok & _).
  exists p, d1, d2, rest. auto.
Qed.

Lemma loc_exec_none stk : exec false locRe stk = None -> ~ hasLoc stk.
Proof.
  intros H (a & s & -> & Hs).
  destruct (locRe_complete (advance None a) s Hs) as (g & Hg).
  destruct (execFrom_found _ _ _ _ _ _ Hg) as (g' & Hg').
  unfold exec in H. congruence.
Qed.

Lemma loc_exec_some stk g :
  exec false locRe stk = Some g ->
  exists a p d1 d2 rest,
    stk = a ++ locText p d1 d2 ++ rest /\ locOk p d1 d2 /\
    group 1 g = SLASH :: p /\ group 2 g = d1 /\ group 3 g = d2.
Proof.
  intros H. apply execFrom_elim in H as (a & s & -> & H & _).
  apply locRe_elim in H as (p & d1 & d2 & rest & -> & Hok & _ & G1 & G2 & G3).
  exists a, p, d1, d2, rest. auto.
Qed.

Lemma loc_exec_first stk p d1 d2 :
  firstLoc stk p d1 d2 ->
  exists g, exec false locRe stk = Some g /\
    group 1 g = SLASH :: p /\ group 2 g = d1 /\ group 3 g = d2.
Proof.
  intros (a & rest & -> & Hok & Hstop & Hfirst).
  destruct (locRe_intro (advance None a) p d1 d2 rest Hok Hstop) as (g & Hg & G).
  exists g. split; [|exact G].
  apply execFrom_intro; [exact Hg|].
  intros a1 a2 E Hne.
  destruct (run false locRe (advance None a1) (a2 ++ locText p d1 d2 ++ rest)) eqn:R;
    [|reflexivity].
  exfalso. apply (Hfirst a1 a2 E Hne). eapply locRe_sound; eassumption.
Qed.

(** ** The traceback frame pattern *)

Lemma pyFile_items :
  pyFile = map Chr (lit "File ") ++
           Chr QUOTE :: Open :: Plus notQuote :: Close :: Chr QUOTE ::
           (map Chr (lit ", line ") ++ [Open; Plus isDigit; Close]).
Proof. reflexivity. Qed.

Lemma pyFile_elim prev s g :
  run false pyFile prev s = Some g ->
  exists path digits rest,
    s = frameText path digits ++ rest /\ frameOk path digits /\
    stopsAt isDigit rest /\ group 1 g = path /\ group 2 g = digits.
Proof.
  rewrite pyFile_items. intros H.
  apply run_chars_elim in H as (s1 & -> & H).
  apply run_Chr_elim in H as (s2 & -> & H).
  apply run_Open_elim in H as (g1 & -> & H).
  apply run_Plus_elim in H as (path & s3 & -> & Hp & Fp & H & _).
  apply run_Close_elim in H as (g2 & -> & H).
  apply run_Chr_elim in H as (s4 & -> & H).
  apply run_chars_elim in H as (s5 & -> & H).
  apply run_Open_elim in H as (g3 & -> & H).
  apply run_Plus_elim in H as (digits & rest & -> & Hd & Fd & H & Hl).
  pose proof (plus_last_stops _ _ _ _ _ Hl Fd) as Hstop.
  apply run_Close_elim in H as (g4 & -> & H). apply run_nil_elim in H as ->.
  exists path, digits, rest. repeat split; auto.
  - unfold frameText. assoc_eq.
  - apply (group1_app path).
  - apply (group2_app _ _ digits).
Qed.

Lemma pyFile_intro prev path digits rest :
  frameOk path digits -> stopsAt isDigit rest ->
  exists g,
    run false pyFile prev (frameText path digits ++ rest) = Some g /\
    group 1 g = path /\ group 2 g = digits.
Proof.
  intros (Hp & Fp & Hd & Fd) Hstop.
  assert (frameText path digits ++ rest =
          lit "File " ++ QUOTE :: path ++ QUOTE :: lit ", line " ++ digits ++ rest) as ->.
  { unfold frameText. assoc_eq. }
  eexists. split.
  - rewrite pyFile_items, run_chars_intro, run_Chr_intro.
    apply run_Open_intro.
    apply run_Plus_greedy; [exact Hp | exact Fp | reflexivity |].
    apply run_Close_intro. rewrite run_Chr_intro, run_chars_intro.
    apply run_Open_intro.
    apply run_Plus_greedy; [exact Hd | exact Fd | exact Hstop |].
    reflexivity.
  - split.
    + apply (group1_app path).
    + apply (group2_app _ _ digits).
Qed.

Lemma frameStarts_maximal s :
  frameStarts s ->
  exists path digits rest,
    s = frameText path digits ++ rest /\ frameOk path digits /\ stopsAt isDigit rest.
Proof.
  intros (path & digits & rest & -> & Hp & Fp & Hd & Fd).
  destruct (stopsAt_split isDigit rest) as (e & rest' & -> & He & Hstop).
  exists path, (digits ++ e), rest'. repeat split; auto.
  - unfold frameText. assoc_eq.
  - destruct digits; [congruence | discriminate].
  - rewrite forallb_app, Fd, He. reflexivity.
Qed.

Lemma pyFile_sound prev s g : run false pyFile prev s = Some g -> frameStarts s.
Proof.
  intros H. apply pyFile_elim in H as (path & digits & rest & -> & Hok & _).
  exists path, digits, rest. auto.
Qed.

Lemma frame_exec_none l : ~ hasFrame l -> exec false pyFile l = None.
Proof.
  intros Hn. apply execFrom_none. intros a b ->.
  destruct (run false pyFile (advance None a) b) eqn:R; [|reflexivity].
  exfalso. apply Hn. exists a, b. split; [reflexivity|].
  eapply pyFile_sound; eassumption.
Qed.

Lemma frame_exec_first l path digits :
  firstFrame l path digits ->
  exists g, exec false pyFile l = Some g /\ group 1 g = path /\ group 2 g = digits.
Proof.
  intros (a & rest & -> & Hok & Hstop & Hfirst).
  destruct (pyFile_intro (advance None a) path digits rest Hok Hstop) as (g & Hg & G).
  exists g. split; [|exact G].
  apply execFrom_intro; [exact Hg|].
  intros a1 a2 E Hne.
  destruct (run false pyFile (advance None a1) (a2 ++ frameText path digits ++ rest)) eqn:R;
    [|reflexivity].
  exfalso. apply (Hfirst a1 a2 E Hne). eapply pyFile_sound; eassumption.
Qed.

(** The loop over the lines. *)

Lemma pyFileStep_none lines acc :
  (forall l, In l lines -> ~ hasFrame l) ->
  fold_left pyFileStep lines acc = acc.
Proof.
  revert acc. induction lines as [|l lines IH]; intros acc H; [reflexivity|].
  simpl. unfold pyFileStep at 2.
  rewrite frame_exec_none by (apply H; now left).
  apply IH. intros l' Hl'. apply H. now right.
Qed.

Lemma pyFileStep_last before l after acc path digits :
  firstFrame l path digits ->
  (forall l', In l' after -> ~ hasFrame l') ->
  fold_left pyFileStep (before ++ l :: after) acc = (Some path, Some (Number digits)).
Proof.
  intros Hf Hafter. rewrite fold_left_app. simpl.
  rewrite pyFileStep_none by exact Hafter.
  unfold pyFileStep.
  destruct (frame_exec_first _ _ _ Hf) as (g & -> & -> & ->). reflexivity.
Qed.

Lemma pyFileStep_paired lines acc :
  (fst acc = None <-> snd acc = None) ->
  (fst (fold_left pyFileStep lines acc) = None <->
   snd (fold_left pyFileStep lines acc) = None).
Proof.
  revert acc. induction lines as [|l lines IH]; intros acc H; [exact H|].
  simpl. apply IH. unfold pyFileStep.
  destruct (exec false pyFile l); [|exact H]. simpl. split; discriminate.
Qed.

(** ** The one-line patterns [kind: message] *)

Lemma pyTypeRe_items :
  pyTypeRe = Bol :: Open :: Cls isAlpha_ :: Star isWord :: lineTail.
Proof. reflexivity. Qed.

Lemma nodeLineRe_items :
  nodeLineRe = Bol :: Open :: Star isWordDot :: (map Chr (lit "Error") ++ lineTail).
Proof. reflexivity. Qed.

Lemma msgTail_intro prev msg :
  forallb dot msg = true ->
  run false [Open; Star dot; Close; Eol] prev msg = Some [msg; []].
Proof.
  intros H. apply run_Open_intro. apply run_Star_all; [exact H|]. reflexivity.
Qed.

Lemma lineTail_intro prev ws msg :
  forallb isSpace ws = true -> stopsAt isSpace msg -> forallb dot msg = true ->
  let s := [COLON] ++ ws ++ msg in
  run false lineTail prev s = Some [s; msg; []].
Proof.
  intros Hws Hstop Hmsg s. unfold lineTail.
  apply run_Close_intro. subst s. simpl app at 1. rewrite run_Chr_intro.
  apply run_Star_greedy; [exact Hws | exact Hstop |].
  now apply msgTail_intro.
Qed.

Lemma lineTail_elim prev s g :
  run false lineTail prev s = Some g ->
  exists ws msg,
    s = [COLON] ++ ws ++ msg /\ forallb isSpace ws = true /\
    stopsAt isSpace msg /\ forallb dot msg = true /\ g = [s; msg; []].
Proof.
  unfold lineTail. intros H.
  apply run_Close_elim in H as (g1 & -> & H).
  apply run_Chr_elim in H as (s1 & -> & H).
  apply run_Star_elim in H as (ws & s2 & -> & Hws & H & Hl).
  apply run_Open_elim in H as (g2 & -> & H).
  apply run_Star_elim in H as (msg & s3 & -> & Hmsg & H & _).
  apply run_Close_elim in H as (g3 & -> & H).
  apply run_Eol_elim in H as (He & H). apply run_nil_elim in H as ->.
  destruct s3; [|discriminate]. rewrite app_nil_r in *.
  exists ws, msg. repeat split; auto.
  destruct msg as [|c msg]; [exact I|]. simpl.
  destruct (isSpace c) eqn:E; [|reflexivity].
  simpl in Hmsg. apply andb_prop in Hmsg as [_ Hmsg].
  assert (run false [Open; Star dot; Close; Eol]
            (advance (Some COLON) (ws ++ [c])) msg = None) as Hn.
  { apply Hl.
    - rewrite <- app_assoc. reflexivity.
    - rewrite length_app. simpl. lia.
    - rewrite forallb_app, Hws. simpl. now rewrite E. }
  rewrite msgTail_intro in Hn by exact Hmsg. discriminate.
Qed.

Lemma group2_last x y msg : group 2 [x; y; msg; []] = msg.
Proof. apply span_nil. Qed.

Lemma pyTypeRe_intro l kind msg :
  kindMessage simpleId l kind msg ->
  exists g, run false pyTypeRe None l = Some g /\ group 1 g = kind /\ group 2 g = msg.
Proof.
  intros (ws & -> & (c & t & -> & Hc & Ht) & Hws & Hstop & Hmsg).
  pose proof (lineTail_intro (advance (Some c) t) ws msg Hws Hstop Hmsg) as HT.
  cbv zeta in HT. set (s := [COLON] ++ ws ++ msg) in *.
  eexists. split.
  - rewrite pyTypeRe_items, run_Bol_intro by reflexivity.
    apply run_Open_intro. simpl app. rewrite run_Cls_intro by exact Hc.
    apply run_Star_greedy; [exact Ht | reflexivity | exact HT].
  - split.
    + apply (group1_app (c :: t)).
    + apply group2_last.
Qed.

Lemma pyTypeRe_elim prev l g :
  run false pyTypeRe prev l = Some g ->
  prev = None /\
  exists kind msg, kindMessage simpleId l kind msg /\ group 1 g = kind /\ group 2 g = msg.
Proof.
  rewrite pyTypeRe_items. intros H.
  apply run_Bol_elim in H as (Hb & H).
  split; [destruct prev; [discriminate | reflexivity]|].
  apply run_Open_elim in H as (g1 & -> & H).
  apply run_Cls_elim in H as (c & s1 & -> & Hc & H).
  apply run_Star_elim in H as (t & s2 & -> & Ht & H & _).
  apply lineTail_elim in H as (ws & msg & E & Hws & Hstop & Hmsg & ->).
  exists (c :: t), msg. repeat split.
  - exists ws. rewrite E. repeat split; auto. exists c, t. auto.
  - apply (group1_app (c :: t)).
  - apply group2_last.
Qed.

Lemma nodeLineRe_intro l kind msg :
  kindMessage errorId l kind msg ->
  exists g, run false nodeLineRe None l = Some g /\ group 1 g = kind /\ group 2 g = msg.
Proof.
  intros (ws & -> & (w & -> & Hw) & Hws & Hstop & Hmsg).
  pose proof (lineTail_intro (advance (advance None w) (lit "Error")) ws msg
                Hws Hstop Hmsg) as HT.
  cbv zeta in HT. set (s := [COLON] ++ ws ++ msg) in *.
  eexists. split.
  - rewrite nodeLineRe_items, run_Bol_intro by reflexivity.
    apply run_Open_intro. rewrite <- app_assoc.
    apply run_Star_first; [exact Hw | |].
    + rewrite run_chars_intro. exact HT.
    + intros a' b' E L Ha'.
      destruct (app_longer _ _ _ _ E L) as (x & Hx & -> & E').
      rewrite forallb_app in Ha'. apply andb_prop in Ha' as [_ Ha'].
      eapply error_backtrack; [exact Hx | exact E' | exact Ha'].
  - split.
    + rewrite <- app_assoc, app_assoc. apply group1_app.
    + apply group2_last.
Qed.

Lemma nodeLineRe_elim prev l g :
  run false nodeLineRe prev l = Some g ->
  prev = None /\
  exists kind msg, kindMessage errorId l kind msg /\ group 1 g = kind /\ group 2 g = msg.
Proof.
  rewrite nodeLineRe_items. intros H.
  apply run_Bol_elim in H as (Hb & H).
  split; [destruct prev; [discriminate | reflexivity]|].
  apply run_Open_elim in H as (g1 & -> & H).
  apply run_Star_elim in H as (w & s1 & -> & Hw & H & _).
  apply run_chars_elim in H as (s2 & -> & H).
  apply lineTail_elim in H as (ws & msg & E & Hws & Hstop & Hmsg & ->).
  exists (w ++ lit "Error"), msg. repeat split.
  - exists ws. rewrite E, <- app_assoc. repeat split; auto. exists w. auto.
  - rewrite app_assoc. apply group1_app.
  - apply group2_last.
Qed.

(** A pattern that starts with [^] and has no [m] flag matches at index 0
    or nowhere. *)
Lemma execFrom_Bol_later r c s : execFrom false (Bol :: r) (Some c) s = None.
Proof.
  revert c. induction s as [|x s IH]; intros c; simpl; [reflexivity|]. apply IH.
Qed.

Lemma exec_Bol r s : exec false (Bol :: r) s = run false (Bol :: r) None s.
Proof.
  unfold exec. destruct s as [|c s]; simpl.
  - destruct (run false r None []); reflexivity.
  - destruct (run false r None (c :: s)); [reflexivity|]. apply execFrom_Bol_later.
Qed.

Lemma pyType_exec_some l kind msg :
  kindMessage simpleId l kind msg ->
  exists g, exec false pyTypeRe l = Some g /\ group 1 g = kind /\ group 2 g = msg.
Proof.
  intros H. rewrite pyTypeRe_items, exec_Bol, <- pyTypeRe_items.
  now apply pyTypeRe_intro.
Qed.

Lemma pyType_exec_none l :
  (forall kind msg, ~ kindMessage simpleId l kind msg) ->
  exec false pyTypeRe l = None.
Proof.
  intros Hn. rewrite pyTypeRe_items, exec_Bol, <- pyTypeRe_items.
  destruct (run false pyTypeRe None l) eqn:R; [|reflexivity].
  apply pyTypeRe_elim in R as (_ & kind & msg & Hk & _). exfalso. eapply Hn; eassumption.
Qed.

Lemma nodeLine_exec_some l kind msg :
  kindMessage errorId l kind msg ->
  exists g, exec false nodeLineRe l = Some g /\ group 1 g = kind /\ group 2 g = msg.
Proof.
  intros H. rewrite nodeLineRe_items, exec_Bol, <- nodeLineRe_items.
  now apply nodeLineRe_intro.
Qed.

Lemma nodeLine_exec_none l :
  (forall kind msg, ~ kindMessage errorId l kind msg) ->
  exec false nodeLineRe l = None.
Proof.
  intros Hn. rewrite nodeLineRe_items, exec_Bol, <- nodeLineRe_items.
  destruct (run false nodeLineRe None l) eqn:R; [|reflexivity].
  apply nodeLineRe_elim in R as (_ & kind & msg & Hk & _). exfalso. eapply Hn; eassumption.
Qed.

(** ** The traceback marker *)

Lemma tracebackRe_items : tracebackRe = map Chr tracebackMarker ++ [].
Proof. unfold tracebackRe, chars, tracebackMarker. now rewrite app_nil_r. Qed.

Lemma marker_test s : test true tracebackRe s = true <-> occurs tracebackMarker s.
Proof.
  unfold test, exec. rewrite tracebackRe_items. split.
  - destruct (execFrom true _ None s) as [g|] eqn:E; [|discriminate]. intros _.
    apply execFrom_elim in E as (a & b & -> & H & _).
    apply run_chars_elim in H as (s' & -> & _). exists a, s'. reflexivity.
  - intros (a & b & ->).
    assert (run true (map Chr tracebackMarker ++ []) (advance None a)
              (tracebackMarker ++ b) = Some []) as R.
    { rewrite run_chars_intro. reflexivity. }
    destruct (execFrom_found _ _ _ _ _ _ R) as (g' & ->). reflexivity.
Qed.

(** ** Lines *)

Lemma split_nonempty sep s : split sep s <> [].
Proof.
  destruct s as [|c s]; simpl; [discriminate|].
  destruct (c =? sep); [discriminate|]. destruct (split sep s); discriminate.
Qed.

Lemma split_covers sep s c :
  In c s -> c <> sep -> exists l, In l (split sep s) /\ In c l.
Proof.
  induction s as [|x s IH]; intros Hin Hc; [destruct Hin|].
  simpl. destruct (N.eqb_spec x sep) as [->|Hx].
  - destruct Hin as [->|Hin]; [congruence|].
    destruct (IH Hin Hc) as (l & Hl & Hcl). exists l. split; [now right | exact Hcl].
  - destruct (split sep s) as [|l ls] eqn:E; [now apply split_nonempty in E|].
    destruct Hin as [->|Hin].
    + exists (c :: l). split; now left.
    + destruct (IH Hin Hc) as (l' & [<-|Hl'] & Hcl).
      * exists (x :: l). split; [now left | now right].
      * exists l'. split; [now right | exact Hcl].
Qed.

Lemma nonBlank_blank l : nonBlank l = true <-> ~ blank l.
Proof.
  rewrite nonBlank_spec. unfold blank. split.
  - intros (c & Hc & Hs) H. rewrite forallb_forall in H. rewrite (H c Hc) in Hs.
    discriminate.
  - intros H. induction l as [|c l IH]; [now elim H|].
    simpl in H. destruct (isSpace c) eqn:E.
    + destruct IH as (d & Hd & Hs); [exact H|]. exists d. split; [now right | exact Hs].
    + exists c. split; [now left | exact E].
Qed.

Lemma nonBlank_false l : nonBlank l = false <-> blank l.
Proof.
  split.
  - intros H. unfold blank. destruct (forallb isSpace l) eqn:E; [reflexivity|].
    assert (nonBlank l = true) as H'; [|congruence].
    apply nonBlank_blank. unfold blank. congruence.
  - intros H. destruct (nonBlank l) eqn:E; [|reflexivity].
    apply nonBlank_blank in E. contradiction.
Qed.

Lemma find_split (f : jsstring -> bool) xs x :
  find f xs = Some x ->
  exists before after, xs = before ++ x :: after /\ f x = true /\
    Forall (fun y => f y = false) before.
Proof.
  induction xs as [|y xs IH]; simpl; [discriminate|].
  destruct (f y) eqn:E.
  - intros H. injection H as ->. exists [], xs. auto.
  - intros H. destruct (IH H) as (before & after & -> & Hx & Hb).
    exists (y :: before), after. auto.
Qed.

Lemma find_first (f : jsstring -> bool) before x after :
  f x = true -> Forall (fun y => f y = false) before ->
  find f (before ++ x :: after) = Some x.
Proof.
  intros Hx Hb. induction Hb as [|y before Hy Hb IH]; simpl.
  - now rewrite Hx.
  - now rewrite Hy.
Qed.

Lemma find_all_false (f : jsstring -> bool) xs :
  Forall (fun y => f y = false) xs -> find f xs = None.
Proof. induction 1 as [|y xs Hy _ IH]; simpl; [reflexivity | now rewrite Hy]. Qed.

Lemma blank_Forall ls : Forall blank ls <-> Forall (fun y => nonBlank y = false) ls.
Proof. split; apply Forall_impl; intros l; apply nonBlank_false. Qed.

Lemma lastNonBlank_intro text l :
  lastNonBlankLine text l -> lastNonBlank (split NL text) = l.
Proof.
  intros (before & after & E & Hl & Ha). unfold lastNonBlank.
  rewrite E, rev_app_distr. simpl. rewrite <- app_assoc. simpl.
  rewrite find_first; [reflexivity | now apply nonBlank_blank |].
  apply blank_Forall, Forall_rev, Ha.
Qed.

Lemma lastNonBlank_exists text :
  ~ Forall blank (split NL text) ->
  exists l, lastNonBlankLine text l.
Proof.
  intros H. destruct (find nonBlank (rev (split NL text))) as [l|] eqn:E.
  - apply find_split in E as (before & after & E & Hl & Hb).
    exists l, (rev after), (rev before). repeat split.
    + rewrite <- (rev_involutive (split NL text)), E, rev_app_distr. simpl.
      rewrite <- app_assoc. reflexivity.
    + now apply nonBlank_blank.
    + apply Forall_rev, blank_Forall, Hb.
  - exfalso. apply H. apply blank_Forall, Forall_forall. intros l Hl.
    apply (find_none _ _ E). now apply in_rev in Hl.
Qed.

Lemma marker_line text :
  occurs tracebackMarker text -> ~ Forall blank (split NL text).
Proof.
  intros (a & b & ->) H.
  destruct (split_covers NL (a ++ tracebackMarker ++ b) 84) as (l & Hl & Hc).
  - apply in_or_app. right. apply in_or_app. left. now left.
  - discriminate.
  - rewrite Forall_forall in H. specialize (H l Hl). unfold blank in H.
    rewrite forallb_forall in H. specialize (H 84 Hc). discriminate.
Qed.

(** ** The two branches of [parseError] *)

Lemma parseError_node_inv text r :
  parseError (Some text) = Some r -> runtime r = node ->
  exists g,
    exec true nodeRe text = Some g /\
    type r = group 1 g /\ message r = group 2 g /\ stack r = group 3 g /\
    file r = option_map (group 1) (exec false locRe (group 3 g)) /\
    line r = option_map (fun l => Number (group 2 l)) (exec false locRe (group 3 g)) /\
    column r = option_map (fun l => Number (group 3 l)) (exec false locRe (group 3 g)).
Proof.
  unfold parseError. destruct text as [|c text]; [discriminate|].
  destruct (exec true nodeRe (c :: text)) as [g|].
  - intros H _. injection H as <-. exists g. simpl. repeat split.
  - destruct (test true tracebackRe (c :: text)); [|discriminate].
    intros H. injection H as <-. discriminate.
Qed.

Lemma parseError_python_inv text r :
  parseError (Some text) = Some r -> runtime r = python ->
  exec true nodeRe text = None /\ test true tracebackRe text = true /\
  r = {| runtime := python;
         type := match exec false pyTypeRe (lastNonBlank (split NL text)) with
                 | Some g => group 1 g
                 | None => lit "Error"
                 end;
         message := match exec false pyTypeRe (lastNonBlank (split NL text)) with
                    | Some g => group 2 g
                    | None => lastNonBlank (split NL text)
                    end;
         file := fst (fold_left pyFileStep (split NL text) (None, None));
         line := snd (fold_left pyFileStep (split NL text) (None, None));
         column := None;
         stack := text |}.
Proof.
  unfold parseError. destruct text as [|c text]; [discriminate|].
  destruct (exec true nodeRe (c :: text)) as [g|].
  - intros H. injection H as <-. discriminate.
  - destruct (test true tracebackRe (c :: text)); [|discriminate].
    intros H _. injection H as <-. auto.
Qed.

Lemma parseError_python_intro text :
  exec true nodeRe text = None -> test true tracebackRe text = true ->
  exists r, parseError (Some text) = Some r /\ runtime r = python /\
    column r = None /\ stack r = text /\
    file r = fst (fold_left pyFileStep (split NL text) (None, None)) /\
    line r = snd (fold_left pyFileStep (split NL text) (None, None)).
Proof.
  intros Hn Ht. unfold parseError. destruct text as [|c text]; [discriminate|].
  rewrite Hn, Ht. eexists. split; [reflexivity|]. simpl. auto.
Qed.

(** The anchor pattern matches only where the text has the anchor shape. *)
Lemma node_exec_some text g :
  exec true nodeRe text = Some g ->
  exists pre ws,
    anchorMatch text pre (group 1 g) ws (group 2 g) (group 3 g).
Proof.
  intros H. apply execFrom_elim in H as (pre & s & -> & H & _).
  apply nodeRe_elim in H as (Hb & w & ws & msg & stk & -> & Hw & Hws & Hne & Hmsg & Hs
                             & -> & -> & ->).
  exists pre, ws. unfold anchorMatch. repeat split; auto.
  - now apply atBol_lineStart.
  - exists w. auto.
Qed.

Lemma node_exec_none text : ~ matchesAnchor text -> exec true nodeRe text = None.
Proof.
  intros Hn. destruct (exec true nodeRe text) as [g|] eqn:E; [|reflexivity].
  exfalso. apply Hn. apply node_exec_some in E as (pre & ws & H).
  exists pre, (group 1 g), ws, (group 2 g), (group 3 g). exact H.
Qed.

(** ** Family A: the anchor line *)

Lemma lineTerminator_cases c :
  isLineTerminator c = true -> c = 10 \/ c = 13 \/ c = 8232 \/ c = 8233.
Proof.
  unfold isLineTerminator. intros H.
  repeat (apply orb_prop in H as [H|H]); apply N.eqb_eq in H; auto.
Qed.

Lemma lineTerminator_not_anchor c w :
  isLineTerminator c = true -> forallb isWordDot w = true ->
  ~ In c (w ++ lit "Error" ++ [COLON]).
Proof.
  intros Hc Hw Hin. apply in_app_or in Hin as [Hin|Hin].
  - rewrite forallb_forall in Hw. specialize (Hw c Hin).
    destruct (lineTerminator_cases c Hc) as [-> | [-> | [-> | ->]]]; discriminate.
  - destruct (lineTerminator_cases c Hc) as [-> | [-> | [-> | ->]]];
      simpl in Hin; intuition discriminate.
Qed.

Lemma suffix_last (a1 a2 pre' : jsstring) c :
  a1 ++ a2 = pre' ++ [c] -> a2 <> [] -> exists a2', a2 = a2' ++ [c].
Proof.
  intros E Hne. destruct a2 as [|x a2] using rev_ind; [congruence|].
  rewrite app_assoc in E. apply app_inj_tail in E as [_ ->]. eauto.
Qed.

(** Before the first [Error:] of the text the anchor pattern cannot match. *)
Lemma node_no_earlier pre s a1 a2 :
  lineStart pre -> ~ occurs (lit "Error:") pre ->
  pre = a1 ++ a2 -> a2 <> [] ->
  run true nodeRe (advance None a1) (a2 ++ s) = None.
Proof.
  intros Hls Hno E Hne.
  destruct (run true nodeRe (advance None a1) (a2 ++ s)) as [g|] eqn:R; [|reflexivity].
  exfalso. apply nodeRe_elim in R as (_ & w & ws & msg & stk & Eq & Hw & _).
  destruct Hls as [-> | (pre' & c & Epre & Hc)].
  { destruct a1; destruct a2; try discriminate. congruence. }
  rewrite Epre in E. symmetry in E.
  destruct (suffix_last _ _ _ _ E Hne) as (a2' & ->).
  assert (a2' ++ [c] ++ s = (w ++ lit "Error" ++ [COLON]) ++ ws ++ msg ++ [NL] ++ stk) as Eq'.
  { repeat rewrite <- app_assoc in Eq. repeat rewrite <- app_assoc. exact Eq. }
  rewrite app_assoc in Eq'.
  apply app_eq_app in Eq' as (l & [[E1 E2]|[E1 E2]]).
  - apply Hno. rewrite Epre, <- E, E1.
    exists (a1 ++ w), l. change (lit "Error:") with (lit "Error" ++ [COLON]).
    repeat rewrite <- app_assoc. reflexivity.
  - apply (lineTerminator_not_anchor c w Hc Hw). rewrite E1.
    apply in_or_app. left. apply in_or_app. right. now left.
Qed.

Lemma node_exec_anchor pre w ws msg stk :
  lineStart pre -> ~ occurs (lit "Error:") pre ->
  forallb isWordDot w = true -> forallb isSpace ws = true ->
  msg <> [] -> stopsAt isSpace msg -> forallb notNL msg = true -> stk <> [] ->
  exists g,
    exec true nodeRe (pre ++ (w ++ lit "Error") ++ [COLON] ++ ws ++ msg ++ [NL] ++ stk)
      = Some g /\
    group 1 g = w ++ lit "Error" /\ group 2 g = msg /\ group 3 g = stk.
Proof.
  intros Hls Hno Hw Hws Hne Hstop Hmsg Hs.
  destruct (nodeRe_intro (advance None pre) w ws msg stk) as (g & Hg & G); auto.
  { now apply atBol_lineStart. }
  exists g. split; [|exact G].
  rewrite <- app_assoc. apply execFrom_intro; [exact Hg|].
  intros a1 a2 E Hne2. now apply node_no_earlier with (pre := pre).
Qed.

Lemma parseError_node_intro text g :
  exec true nodeRe text = Some g ->
  exists r, parseError (Some text) = Some r /\ runtime r = node /\
    type r = group 1 g /\ message r = group 2 g /\ stack r = group 3 g /\
    file r = option_map (group 1) (exec false locRe (group 3 g)) /\
    line r = option_map (fun l => Number (group 2 l)) (exec false locRe (group 3 g)) /\
    column r = option_map (fun l => Number (group 3 l)) (exec false locRe (group 3 g)).
Proof.
  intros H. unfold parseError. destruct text as [|c text].
  - apply execFrom_elim in H as (a & b & E & H & _).
    destruct a; destruct b; discriminate.
  - rewrite H. eexists. split; [reflexivity|]. simpl. repeat split.
Qed.

(** The patterns match wherever the text has their shape. *)

Lemma run_Star_some m r prev p a b g :
  forallb p a = true -> run m r (advance prev a) b = Some g ->
  exists g', run m (Star p :: r) prev (a ++ b) = Some g'.
Proof.
  intros Ha Hg. simpl. destruct (star p (run m r) prev (a ++ b)) as [g'|] eqn:S; [eauto|].
  rewrite (star_none_elim _ _ _ _ S a b eq_refl Ha) in Hg. discriminate.
Qed.

Lemma nodeRe_complete prev w ws msg stk :
  atBol true prev = true -> forallb isWordDot w = true ->
  forallb isSpace ws = true -> msg <> [] -> forallb notNL msg = true -> stk <> [] ->
  exists g, run true nodeRe prev
              ((w ++ lit "Error") ++ [COLON] ++ ws ++ msg ++ [NL] ++ stk) = Some g.
Proof.
  intros Hb Hw Hws Hne Hmsg Hs.
  rewrite nodeRe_items, run_Bol_intro by exact Hb.
  assert (exists g, run true (Open :: Plus notNL :: Close :: Chr NL ::
                               Open :: Plus anyChar :: [Close])
                      (advance (Some COLON) ws) (msg ++ [NL] ++ stk) = Some g)
    as (g1 & H1).
  { eexists. apply run_Open_intro.
    apply run_Plus_greedy; [exact Hne | exact Hmsg | reflexivity |].
    apply run_Close_intro. simpl app at 1. rewrite run_Chr_intro.
    apply run_Open_intro.
    apply run_Plus_all; [exact Hs | apply forallb_forall; reflexivity |]. reflexivity. }
  destruct (run_Star_some _ _ _ _ _ _ _ Hws H1) as (g2 & H2).
  assert (exists g, run true (map Chr (lit "Error") ++ nodeTail) (advance prev w)
                      (lit "Error" ++ [COLON] ++ ws ++ msg ++ [NL] ++ stk) = Some g)
    as (g3 & H3).
  { rewrite run_chars_intro. unfold nodeTail. eexists.
    apply run_Close_intro. simpl app at 1. rewrite run_Chr_intro. exact H2. }
  destruct (run_Star_some _ _ _ _ _ _ _ Hw H3) as (g4 & H4).
  rewrite <- app_assoc. eexists. apply run_Open_intro. exact H4.
Qed.

Lemma node_exec_complete text : exec true nodeRe text = None -> ~ matchesAnchor text.
Proof.
  intros H (pre & kind & ws & msg & stk & -> & Hls & (w & -> & Hw) & Hws & Hne & Hmsg & Hs).
  destruct (nodeRe_complete (advance None pre) w ws msg stk) as (g & Hg); auto.
  { now apply atBol_lineStart. }
  destruct (execFrom_found _ _ _ _ _ _ Hg) as (g' & Hg').
  unfold exec in H. congruence.
Qed.

Lemma node_exec_first_anchor pre w ws msg stk :
  lineStart pre ->
  firstAnchor (pre ++ (w ++ lit "Error") ++ [COLON] ++ ws ++ msg ++ [NL] ++ stk) pre ->
  forallb isWordDot w = true -> forallb isSpace ws = true ->
  msg <> [] -> stopsAt isSpace msg -> forallb notNL msg = true -> stk <> [] ->
  exists g,
    exec true nodeRe (pre ++ (w ++ lit "Error") ++ [COLON] ++ ws ++ msg ++ [NL] ++ stk)
      = Some g /\
    group 1 g = w ++ lit "Error" /\ group 2 g = msg /\ group 3 g = stk.
Proof.
  intros Hls Hfirst Hw Hws Hne Hstop Hmsg Hs.
  destruct (nodeRe_intro (advance None pre) w ws msg stk) as (g & Hg & G); auto.
  { now apply atBol_lineStart. }
  exists g. split; [|exact G].
  rewrite <- app_assoc. apply execFrom_intro; [exact Hg|].
  intros a1 a2 E Hne2.
  destruct (run true nodeRe (advance None a1) _) as [g'|] eqn:R; [|reflexivity].
  exfalso. apply nodeRe_elim in R as (Hb & w' & ws' & msg' & stk' & Eq & Hw' & Hws' & Hne'
                                      & Hmsg' & Hs' & _).
  assert (List.length pre <= List.length a1)%nat as L.
  { apply (Hfirst a1 (w' ++ lit "Error") ws' msg' stk'). repeat split; auto.
    - rewrite E, <- app_assoc. f_equal. rewrite <- Eq. now rewrite <- app_assoc.
    - now apply atBol_lineStart.
    - exists w'. auto. }
  rewrite E, length_app in L. destruct a2; [congruence | simpl in L; lia].
Qed.

(** A way to check [firstAnchor] by running the anchor pattern at every
    earlier position. *)
Lemma firstAnchor_check text pre :
  forallb (fun i => match run true nodeRe (advance None (firstn i text)) (skipn i text) with
                    | None => true
                    | Some _ => false
                    end) (seq 0 (List.length pre)) = true ->
  firstAnchor text pre.
Proof.
  intros H pre' kind' ws' msg' stk' (E & Hls & (w' & -> & Hw') & Hws' & Hne' & Hmsg' & Hs').
  destruct (Nat.le_gt_cases (List.length pre) (List.length pre')) as [L|L]; [exact L|].
  exfalso. rewrite forallb_forall in H.
  specialize (H (List.length pre') ltac:(apply in_seq; lia)).
  destruct (nodeRe_complete (advance None pre') w' ws' msg' stk') as (g & Hg); auto.
  { now apply atBol_lineStart. }
  set (s' := (w' ++ lit "Error") ++ [COLON] ++ ws' ++ msg' ++ [NL] ++ stk') in *.
  assert (firstn (List.length pre') text = pre') as E1.
  { rewrite E, firstn_app, Nat.sub_diag, firstn_all. simpl. apply app_nil_r. }
  assert (skipn (List.length pre') text = s') as E2.
  { rewrite E, skipn_app, Nat.sub_diag, skipn_all. reflexivity. }
  rewrite E1, E2, Hg in H. discriminate.
Qed.

(** C1, as amended. When the first anchor of the text starts a line with
    an identifier ending in Error and a colon, followed on that line, after
    optional white space, by a message that begins with a character that is
    not white space, and by further text after the newline, [parseError]
    returns a family-A record: its kind is the identifier, its message the
    rest of the line, its stack the text after the newline; and when that
    stack contains a location [/path:line:column], file, line and column
    are those of the first one, the two numbers as [Number] reads their
    digits. *)
Theorem parseError_anchor (pre w ws msg stk : jsstring) :
  lineStart pre ->
  firstAnchor (pre ++ (w ++ lit "Error") ++ [COLON] ++ ws ++ msg ++ [NL] ++ stk) pre ->
  forallb isWordDot w = true ->
  forallb isSpace ws = true -> forallb notNL ws = true ->
  msg <> [] -> stopsAt isSpace msg -> forallb notNL msg = true ->
  stk <> [] ->
  exists r,
    parseError (Some (pre ++ (w ++ lit "Error") ++ [COLON] ++ ws ++ msg ++ [NL] ++ stk))
      = Some r /\
    runtime r = node /\ type r = w ++ lit "Error" /\ message r = msg /\
    stack r = stk /\
    forall p d1 d2, firstLoc stk p d1 d2 ->
      file r = Some (SLASH :: p) /\ line r = Some (Number d1) /\
      column r = Some (Number d2).
Proof.
  intros Hls Hfirst Hw Hws _ Hne Hstop Hmsg Hs.
  destruct (node_exec_first_anchor pre w ws msg stk) as (g & Hg & G1 & G2 & G3); auto.
  destruct (parseError_node_intro _ _ Hg) as (r & Hr & Rt & Ty & Ms & St & Fi & Li & Co).
  exists r. rewrite G1 in Ty. rewrite G2 in Ms. rewrite G3 in St, Fi, Li, Co.
  split; [exact Hr|]. repeat (split; [assumption|]).
  intros p d1 d2 Hfirst'.
  destruct (loc_exec_first _ _ _ _ Hfirst') as (l & El & L1 & L2 & L3).
  rewrite El in Fi, Li, Co. simpl in Fi, Li, Co.
  rewrite L1 in Fi. rewrite L2 in Li. rewrite L3 in Co. auto.
Qed.

Lemma not_occurs_nil x : x <> [] -> ~ occurs x [].
Proof.
  intros Hx (a & b & E). destruct a; [|discriminate].
  destruct x; [congruence | discriminate].
Qed.

Lemma no_slash_no_loc a t :
  forallb (fun c => negb (c =? SLASH)) a = true ->
  forall a1 a2, a = a1 ++ a2 -> a2 <> [] -> ~ locStarts (a2 ++ t).
Proof.
  intros Ha a1 a2 -> Hne (p & d1 & d2 & rest & E & _).
  destruct a2 as [|c a2]; [congruence|].
  unfold locText in E. simpl in E. injection E as -> _.
  rewrite forallb_app in Ha. simpl in Ha. rewrite andb_false_r in Ha. discriminate.
Qed.

(** Scenario 1 of the specification, and a text whose anchor line comes
    after a log line that mentions [Error:], through [parseError_anchor]. *)
Lemma parseError_anchor_scenario1 :
  (exists r,
     parseError (Some (lit "TypeError: Cannot read properties of undefined" ++ NL ::
                       lit "    at Object.<anonymous> (/tmp/app.js:12:5)")) = Some r /\
     runtime r = node /\ type r = lit "TypeError" /\
     message r = lit "Cannot read properties of undefined" /\
     file r = Some (lit "/tmp/app.js") /\ line r = Some (Fin 12) /\
     column r = Some (Fin 5)) /\
  (exists r,
     parseError (Some (lit "[log] Error: a" ++ NL :: lit "TypeError: b" ++ NL ::
                       lit "  at /x.js:1:2")) = Some r /\
     type r = lit "TypeError" /\ message r = lit "b" /\
     file r = Some (lit "/x.js") /\ line r = Some (Fin 1) /\ column r = Some (Fin 2)).
Proof.
  split.
  - destruct (parseError_anchor [] (lit "Type") (lit " ")
                (lit "Cannot read properties of undefined")
                (lit "    at Object.<anonymous> (/tmp/app.js:12:5)"))
      as (r & Hr & Rt & Ty & Ms & _ & Hloc);
      try reflexivity; try discriminate.
    + now left.
    + apply firstAnchor_check. reflexivity.
    + destruct (Hloc (lit "tmp/app.js") (lit "12") (lit "5")) as (Fi & Li & Co).
      * exists (lit "    at Object.<anonymous> ("), (lit ")").
        split; [reflexivity|]. split.
        { repeat split; try reflexivity; discriminate. }
        split; [reflexivity|].
        apply no_slash_no_loc. reflexivity.
      * exists r. repeat split; assumption.
  - destruct (parseError_anchor (lit "[log] Error: a" ++ [NL]) (lit "Type") (lit " ")
                (lit "b") (lit "  at /x.js:1:2"))
      as (r & Hr & _ & Ty & Ms & _ & Hloc);
      try reflexivity; try discriminate.
    + right. exists (lit "[log] Error: a"), NL. split; reflexivity.
    + apply firstAnchor_check. reflexivity.
    + destruct (Hloc (lit "x.js") (lit "1") (lit "2")) as (Fi & Li & Co).
      * exists (lit "  at "), [].
        split; [reflexivity|]. split.
        { repeat split; try reflexivity; discriminate. }
        split; [exact I|].
        apply no_slash_no_loc. reflexivity.
      * exists r. repeat split; assumption.
Defined.

(** C1 as stated fails. The text below has the lines [Error:],
    [TypeError: boom] and a stack line. The second line is an anchor line
    followed by a further line, yet the record's kind is [Error]; and its
    message is not the rest of the first line either (that is empty) but the
    whole second line: the white space after the colon runs over the
    newline. *)
Lemma anchor_line_after_bare_header :
  let text := lit "Error:" ++ NL :: lit "TypeError: boom" ++ NL ::
              lit "    at /a.js:1:2" in
  split NL text = [lit "Error:"; lit "TypeError: boom"; lit "    at /a.js:1:2"] /\
  option_map (fun r => (runtime r, type r, message r)) (parseError (Some text))
    = Some (node, lit "Error", lit "TypeError: boom").
Proof. split; reflexivity. Qed.

(** ** Family A: where the location comes from *)

Lemma loc_exec_firstLoc stk g :
  exec false locRe stk = Some g ->
  exists p d1 d2,
    firstLoc stk p d1 d2 /\
    group 1 g = SLASH :: p /\ group 2 g = d1 /\ group 3 g = d2.
Proof.
  intros H. apply execFrom_elim in H as (a & s & -> & H & Hearlier).
  apply locRe_elim in H as (p & d1 & d2 & rest & -> & Hok & Hstop & G1 & G2 & G3).
  exists p, d1, d2. split; [|auto].
  exists a, rest. split; [reflexivity|]. split; [exact Hok|]. split; [exact Hstop|].
  intros a1 a2 E Hne Hs.
  destruct (locRe_complete (advance None a1) _ Hs) as (g' & Hg').
  rewrite (Hearlier a1 a2 E Hne) in Hg'. discriminate.
Qed.

(** C3. In a family-A record the stack is the text after the newline that
    ends the message line, and file, line and column are those of the first
    location [/path:line:column] inside that stack; they are absent when the
    stack contains no location. Nothing before the stack is looked at. *)
Theorem location_confined (text : jsstring) (r : ErrorRecord) :
  parseError (Some text) = Some r -> runtime r = node ->
  exists pre ws,
    text = pre ++ type r ++ [COLON] ++ ws ++ message r ++ [NL] ++ stack r /\
    forallb notNL (message r) = true /\
    ((exists p d1 d2,
        firstLoc (stack r) p d1 d2 /\
        file r = Some (SLASH :: p) /\ line r = Some (Number d1) /\
        column r = Some (Number d2))
     \/
     (~ hasLoc (stack r) /\ file r = None /\ line r = None /\ column r = None)).
Proof.
  intros Hr Rt.
  destruct (parseError_node_inv _ _ Hr Rt) as (g & Hg & Ty & Ms & St & Fi & Li & Co).
  destruct (node_exec_some _ _ Hg) as (pre & ws & E & _ & _ & _ & _ & Hmsg & _).
  rewrite <- Ty, <- Ms, <- St in E. rewrite <- St in Fi, Li, Co.
  exists pre, ws. split; [exact E|]. split; [now rewrite Ms|].
  destruct (exec false locRe (stack r)) as [l|] eqn:El.
  - left. destruct (loc_exec_firstLoc _ _ El) as (p & d1 & d2 & Hf & L1 & L2 & L3).
    exists p, d1, d2. simpl in Fi, Li, Co.
    rewrite L1 in Fi. rewrite L2 in Li. rewrite L3 in Co. auto.
  - right. split; [now apply loc_exec_none|]. auto.
Qed.

(** A message that itself holds a path: the site is still the one of the
    stack. *)
Lemma location_confined_example :
  let text := lit "Error: cannot open /etc/x.conf:3:4" ++ NL ::
              lit "    at main (/srv/app.js:10:7)" in
  exists r, parseError (Some text) = Some r /\
    exists pre ws,
      text = pre ++ type r ++ [COLON] ++ ws ++ message r ++ [NL] ++ stack r /\
      file r = Some (lit "/srv/app.js") /\ line r = Some (Fin 10) /\ column r = Some (Fin 7).
Proof.
  intros text.
  destruct (parseError (Some text)) as [r|] eqn:Hr; [|discriminate].
  assert (runtime r = node) as Rt.
  { vm_compute in Hr. injection Hr as <-. reflexivity. }
  destruct (location_confined text r Hr Rt) as (pre & ws & E & _ & _).
  exists r. split; [reflexivity|]. exists pre, ws. split; [exact E|].
  vm_compute in Hr. injection Hr as <-. repeat split; reflexivity.
Defined.

(** ** Family A or nothing: when [parseError] finds no anchor *)

(** C6, as amended. [parseError] returns absent for an absent input, for
    the empty string, and for every text that holds neither the traceback
    marker nor an anchor as the pattern reads it: at the start of the text
    or right after a line terminator, an identifier ending in Error and a
    colon, optional white space (line breaks included), a non-empty message
    up to a newline, and at least one further character. *)
Theorem parseError_absent :
  parseError None = None /\
  parseError (Some []) = None /\
  forall text,
    ~ matchesAnchor text -> ~ occurs tracebackMarker text ->
    parseError (Some text) = None.
Proof.
  split; [reflexivity|]. split; [reflexivity|].
  intros text Ha Hm. unfold parseError. destruct text as [|c text]; [reflexivity|].
  rewrite (node_exec_none _ Ha).
  destruct (test true tracebackRe (c :: text)) eqn:T; [|reflexivity].
  apply marker_test in T. contradiction.
Qed.

Lemma occurs_In x s c : occurs x s -> In c x -> In c s.
Proof.
  intros (a & b & ->) H. apply in_or_app. right. apply in_or_app. now left.
Qed.

Lemma marker_absent text : test true tracebackRe text = false -> ~ occurs tracebackMarker text.
Proof. intros T H. apply marker_test in H. congruence. Qed.

(** A text without any marker, and a bare [Error:] header followed by a
    single line, through [parseError_absent]. *)
Lemma parseError_absent_plain_text :
  parseError (Some (lit "plain text with no markers")) = None /\
  parseError (Some (lit "Error:" ++ NL :: lit "foo")) = None.
Proof.
  split; apply (proj2 (proj2 parseError_absent));
    solve [apply node_exec_complete; reflexivity | apply marker_absent; reflexivity].
Defined.

(** C6 as stated fails. Neither text below has the traceback marker or a
    line that reads identifier ending in Error, colon, message: the first
    has a bare [Error:] header, the second has [TypeError: x] in the middle
    of its first line, after a carriage return. [parseError] returns a
    family-A record for both. *)
Lemma absent_fails_without_anchor_line :
  let t1 := lit "Error:" ++ NL :: lit "foo" ++ NL :: lit "bar" in
  let t2 := lit "warn" ++ CR :: lit "TypeError: x" ++ NL :: lit "bar" in
  (split NL t1 = [lit "Error:"; lit "foo"; lit "bar"] /\
   test true tracebackRe t1 = false /\
   option_map (fun r => (runtime r, type r, message r)) (parseError (Some t1))
     = Some (node, lit "Error", lit "foo")) /\
  (split NL t2 = [lit "warn" ++ CR :: lit "TypeError: x"; lit "bar"] /\
   test true tracebackRe t2 = false /\
   option_map (fun r => (runtime r, type r, message r)) (parseError (Some t2))
     = Some (node, lit "TypeError", lit "x")).
Proof. repeat split; reflexivity. Qed.

(** ** Family B *)

(** C2, as amended. For a text that contains the traceback marker and that
    the family-A anchor does not match, [parseError] returns a family-B
    record without column; its file and line are absent when no line
    contains a frame reference, and otherwise they are those of the first
    frame reference within the last line that contains one. *)
Theorem parseError_traceback (text : jsstring) :
  occurs tracebackMarker text -> ~ matchesAnchor text ->
  exists r,
    parseError (Some text) = Some r /\ runtime r = python /\ column r = None /\
    ((forall l, In l (split NL text) -> ~ hasFrame l) ->
       file r = None /\ line r = None) /\
    (forall before l after path digits,
       split NL text = before ++ l :: after ->
       firstFrame l path digits ->
       (forall l', In l' after -> ~ hasFrame l') ->
       file r = Some path /\ line r = Some (Number digits)).
Proof.
  intros Hm Ha.
  destruct (parseError_python_intro text) as (r & Hr & Rt & Co & _ & Fi & Li).
  { now apply node_exec_none. }
  { now apply marker_test. }
  exists r. repeat (split; [assumption|]). split.
  - intros Hn. rewrite pyFileStep_none in Fi, Li by exact Hn. auto.
  - intros before l after path digits E Hf Hafter.
    rewrite E, (pyFileStep_last before l after _ path digits Hf Hafter) in Fi, Li. auto.
Qed.

Lemma no_F_no_frame a t :
  forallb (fun c => negb (c =? 70)) a = true ->
  forall a1 a2, a = a1 ++ a2 -> a2 <> [] -> ~ frameStarts (a2 ++ t).
Proof.
  intros Ha a1 a2 -> Hne (path & digits & rest & E & _).
  destruct a2 as [|c a2]; [congruence|].
  unfold frameText in E. simpl in E. injection E as -> _.
  rewrite forallb_app in Ha. simpl in Ha. rewrite andb_false_r in Ha. discriminate.
Qed.

Lemma frame_exec_complete l : exec false pyFile l = None -> ~ hasFrame l.
Proof.
  intros H (a & s & -> & Hs).
  destruct (frameStarts_maximal _ Hs) as (path & digits & rest & -> & Hok & Hstop).
  destruct (pyFile_intro (advance None a) path digits rest Hok Hstop) as (g & Hg & _).
  destruct (execFrom_found _ _ _ _ _ _ Hg) as (g' & Hg').
  unfold exec in H. congruence.
Qed.

Lemma frames_absent (ls : list jsstring) :
  forallb (fun l => negb (test false pyFile l)) ls = true ->
  forall l, In l ls -> ~ hasFrame l.
Proof.
  intros H l Hl. rewrite forallb_forall in H. specialize (H l Hl).
  apply frame_exec_complete. unfold test in H.
  destruct (exec false pyFile l); [discriminate | reflexivity].
Qed.

Lemma marker_present a b : occurs tracebackMarker (a ++ tracebackMarker ++ b).
Proof. exists a, b. reflexivity. Qed.

(** Scenario 2 of the specification, through [parseError_traceback]. *)
Lemma parseError_traceback_scenario2 :
  exists r,
    parseError (Some (tracebackMarker ++ NL ::
                      (lit "  " ++ frameText (lit "/tmp/app.py") (lit "3") ++
                       lit ", in <module>") ++ NL ::
                      lit "    x = 1/0" ++ NL ::
                      lit "ZeroDivisionError: division by zero")) = Some r /\
    runtime r = python /\ column r = None /\
    file r = Some (lit "/tmp/app.py") /\ line r = Some (Fin 3).
Proof.
  match goal with |- exists r, parseError (Some ?t) = _ /\ _ => set (text := t) end.
  destruct (parseError_traceback text) as (r & Hr & Rt & Co & _ & Hlast).
  - apply (marker_present []).
  - apply node_exec_complete. reflexivity.
  - destruct (Hlast [tracebackMarker]
                (lit "  " ++ frameText (lit "/tmp/app.py") (lit "3") ++ lit ", in <module>")
                [lit "    x = 1/0"; lit "ZeroDivisionError: division by zero"]
                (lit "/tmp/app.py") (lit "3")) as (Fi & Li).
    + reflexivity.
    + exists (lit "  "), (lit ", in <module>").
      split; [reflexivity|]. split.
      { repeat split; try reflexivity; discriminate. }
      split; [reflexivity|].
      apply no_F_no_frame. reflexivity.
    + apply frames_absent. reflexivity.
    + exists r. repeat split; assumption.
Defined.

(** C2 as stated fails. The frame line below holds two frame references;
    the last one of the whole text names [b.py], line 2 (no [F] follows its
    own), and the record names the first one of that line. *)
Lemma two_frames_on_one_line :
  let tail := NL :: lit "ValueError: x" in
  let text := tracebackMarker ++ NL ::
              lit "  " ++ frameText (lit "a.py") (lit "1") ++ lit ", in f; " ++
              frameText (lit "b.py") (lit "2") ++ tail in
  forallb (fun c => negb (c =? 70)) (skipn 1 (frameText (lit "b.py") (lit "2")) ++ tail)
    = true /\
  option_map (fun r => (runtime r, file r, line r, column r)) (parseError (Some text))
    = Some (python, Some (lit "a.py"), Some (Fin 1), None).
Proof. split; reflexivity. Qed.

(** C4, as amended. In a family-B record, kind and message come from the
    last line of the text that is not blank: when that line reads
    [identifier: message] with a simple identifier and, after the optional
    white space, a message without line terminator (carriage return,
    U+2028, U+2029), they are the identifier and the message; otherwise the
    kind is the string Error and the message is the line itself. *)
Theorem traceback_kind_message (text : jsstring) (r : ErrorRecord) :
  parseError (Some text) = Some r -> runtime r = python ->
  exists l,
    lastNonBlankLine text l /\
    (forall kind msg, kindMessage simpleId l kind msg ->
       type r = kind /\ message r = msg) /\
    ((forall kind msg, ~ kindMessage simpleId l kind msg) ->
       type r = lit "Error" /\ message r = l).
Proof.
  intros Hr Rt.
  destruct (parseError_python_inv _ _ Hr Rt) as (_ & Ht & ->).
  apply marker_test in Ht.
  destruct (lastNonBlank_exists text (marker_line _ Ht)) as (l & Hl).
  exists l. split; [exact Hl|].
  rewrite (lastNonBlank_intro _ _ Hl). simpl. split.
  - intros kind msg Hk.
    destruct (pyType_exec_some _ _ _ Hk) as (g & -> & G1 & G2). auto.
  - intros Hn. rewrite (pyType_exec_none _ Hn). auto.
Qed.

Lemma pyType_exec_complete l :
  exec false pyTypeRe l = None -> forall kind msg, ~ kindMessage simpleId l kind msg.
Proof.
  intros H kind msg Hk.
  destruct (pyType_exec_some _ _ _ Hk) as (g & Hg & _). congruence.
Qed.

(** A traceback that ends in blank lines, and one whose last line has a
    dotted name. *)
Lemma traceback_kind_message_examples :
  (exists r,
     parseError (Some (tracebackMarker ++ NL :: lit "KeyboardInterrupt: stop" ++ NL ::
                       lit "  " ++ [NL])) = Some r /\
     type r = lit "KeyboardInterrupt" /\ message r = lit "stop") /\
  (exists r,
     parseError (Some (tracebackMarker ++ NL :: lit "a.b.Oops: bad")) = Some r /\
     type r = lit "Error" /\ message r = lit "a.b.Oops: bad").
Proof.
  split.
  - match goal with |- exists r, parseError (Some ?t) = _ /\ _ => set (text := t) end.
    destruct (parseError (Some text)) as [r|] eqn:Hr; [|discriminate].
    assert (runtime r = python) as Rt.
    { vm_compute in Hr. injection Hr as <-. reflexivity. }
    destruct (traceback_kind_message text r Hr Rt) as (l & Hl & Hk & _).
    apply lastNonBlank_intro in Hl. vm_compute in Hl. subst l.
    destruct (Hk (lit "KeyboardInterrupt") (lit "stop")) as (Ty & Ms).
    + exists (lit " "). repeat split; try reflexivity.
      exists 75, (lit "eyboardInterrupt"). repeat split; reflexivity.
    + exists r. auto.
  - match goal with |- exists r, parseError (Some ?t) = _ /\ _ => set (text := t) end.
    destruct (parseError (Some text)) as [r|] eqn:Hr; [|discriminate].
    assert (runtime r = python) as Rt.
    { vm_compute in Hr. injection Hr as <-. reflexivity. }
    destruct (traceback_kind_message text r Hr Rt) as (l & Hl & _ & Hn).
    apply lastNonBlank_intro in Hl. vm_compute in Hl. subst l.
    destruct Hn as (Ty & Ms).
    + apply pyType_exec_complete. reflexivity.
    + exists r. auto.
Defined.

(** C4 as stated fails. The last line below reads [ValueError: bad] and
    ends in a carriage return, as in a text with CRLF line ends; the kind
    is the string Error and the message is the whole line. *)
Lemma kind_lost_to_carriage_return :
  let text := tracebackMarker ++ NL :: lit "ValueError: bad" ++ [CR] in
  lastNonBlank (split NL text) = lit "ValueError: bad" ++ [CR] /\
  option_map (fun r => (runtime r, type r, message r)) (parseError (Some text))
    = Some (python, lit "Error", lit "ValueError: bad" ++ [CR]).
Proof. split; reflexivity. Qed.

(** ** [summarizeStack] *)

Lemma firstNonBlank_intro text l :
  firstNonBlankLine text l -> find nonBlank (split NL text) = Some l.
Proof.
  intros (before & after & -> & Hl & Hb).
  apply find_first; [now apply nonBlank_blank | now apply blank_Forall].
Qed.

Lemma errorId_truthy kind : errorId kind -> truthy kind = true.
Proof. intros (w & -> & _). destruct w; reflexivity. Qed.

Lemma simpleId_truthy kind : simpleId kind -> truthy kind = true.
Proof. intros (c & t & -> & _). reflexivity. Qed.

Lemma nonBlank_truthy_line l : ~ blank l -> truthy l = true.
Proof. intros H. destruct l; [now elim H | reflexivity]. Qed.

Lemma slice0_firstn s e : (0 <= e)%Z -> slice0 s e = firstn (Z.to_nat e) s.
Proof.
  intros He. unfold slice0.
  destruct (Z.ltb_spec e 0) as [L|_]; [lia|].
  destruct (Z.le_ge_cases e (Z.of_nat (List.length s))) as [L|L].
  - now rewrite Z.min_l by exact L.
  - rewrite Z.min_r by exact L. rewrite Nat2Z.id, firstn_all.
    symmetry. apply firstn_all2. lia.
Qed.



(** ** Presence of the location fields *)

(** C10. In a family-A record, file, line and column are all present (when
    the stack contains a location) or all absent; in a family-B record the
    column is absent and file and line are both present or both absent. *)
Theorem location_fields_paired (input : option jsstring) (r : ErrorRecord) :
  parseError input = Some r ->
  match runtime r with
  | node =>
      (file r <> None /\ line r <> None /\ column r <> None /\ hasLoc (stack r)) \/
      (file r = None /\ line r = None /\ column r = None /\ ~ hasLoc (stack r))
  | python =>
      column r = None /\
      ((file r <> None /\ line r <> None) \/ (file r = None /\ line r = None))
  end.
Proof.
  destruct input as [text|]; [|discriminate]. intros Hr.
  destruct (runtime r) eqn:Rt.
  - destruct (parseError_node_inv _ _ Hr Rt) as (g & _ & _ & _ & St & -> & -> & ->).
    rewrite St. destruct (exec false locRe (group 3 g)) as [l|] eqn:El; simpl.
    + left. repeat split; try discriminate.
      destruct (loc_exec_some _ _ El) as (a & p & d1 & d2 & rest & E & Hok & _).
      exists a, (locText p d1 d2 ++ rest). split; [exact E|].
      exists p, d1, d2, rest. auto.
    + right. repeat split. now apply loc_exec_none.
  - destruct (parseError_python_inv _ _ Hr Rt) as (_ & _ & ->). simpl.
    split; [reflexivity|].
    pose proof (pyFileStep_paired (split NL text) (None, None)) as P.
    simpl in P. specialize (P ltac:(tauto)).
    destruct (fst (fold_left pyFileStep (split NL text) (None, None))) eqn:F.
    + left. split; [discriminate|]. intros H. apply P in H. discriminate.
    + right. split; [reflexivity|]. now apply P.
Qed.

Lemma location_fields_paired_example :
  exists r,
    parseError (Some (lit "RangeError: too deep" ++ NL :: lit "    at f (/srv/a.js:7:3)"))
      = Some r /\
    file r <> None /\ line r <> None /\ column r <> None.
Proof.
  match goal with |- exists r, parseError ?t = _ /\ _ => set (input := t) end.
  destruct (parseError input) as [r|] eqn:Hr; [|discriminate].
  pose proof (location_fields_paired input r Hr) as H.
  exists r. split; [reflexivity|].
  vm_compute in Hr. injection Hr as <-. simpl in H.
  destruct H as [(F & L & C & _) | (F & _)]; [auto | discriminate].
Defined.

(** ** The rendered report *)


Lemma truncationMark_length : List.length truncationMark = 13%nat.
Proof. reflexivity. Qed.



Lemma join_cons sep (part : jsstring) ys :
  join sep (part :: ys) = part ++ match ys with [] => [] | _ :: _ => sep ++ join sep ys end.
Proof. destruct ys; simpl; [now rewrite app_nil_r | reflexivity]. Qed.

(** A part of a joined list stands in the text between two separators. *)
Lemma join_around sep xs (part : jsstring) ys :
  xs <> [] ->
  join sep (xs ++ part :: ys) =
    join sep xs ++ sep ++ part ++ match ys with [] => [] | _ :: _ => sep ++ join sep ys end.
Proof.
  intros Hne. induction xs as [|x xs IH]; [congruence|].
  destruct xs as [|x' xs].
  - simpl app. change (join sep [x]) with x.
    change (join sep (x :: part :: ys)) with (x ++ sep ++ join sep (part :: ys)).
    now rewrite join_cons.
  - change (join sep ((x :: x' :: xs) ++ part :: ys))
      with (x ++ sep ++ join sep ((x' :: xs) ++ part :: ys)).
    rewrite IH by discriminate.
    change (join sep (x :: x' :: xs)) with (x ++ sep ++ join sep (x' :: xs)).
    repeat rewrite <- app_assoc. reflexivity.
Qed.








(** ** The [debug] handler *)

Lemma entryMissing_dec env a : entryMissing env a \/ ~ entryMissing env a.
Proof.
  unfold entryMissing. destruct (given (entryPath env a)) as [p|].
  - destruct (existsSync env p) eqn:E.
    + right. intros (q & Hq & Hx). injection Hq as <-. congruence.
    + left. eauto.
  - right. intros (q & Hq & _). discriminate.
Qed.

Lemma debug_missing env a :
  entryMissing env a ->
  exists p, given (entryPath env a) = Some p /\
    debug env a =
      {| spawned := [];
         result := Ok {| content := [TextItem (lit "Entry file not found: " ++ p)];
                         isError := true |} |}.
Proof.
  intros (p & Hp & Hx). exists p. split; [exact Hp|].
  unfold debug. now rewrite Hp, Hx.
Qed.

Lemma debug_present env a : ~ entryMissing env a -> debug env a = runChild env a.
Proof.
  intros H. unfold debug. destruct (given (entryPath env a)) as [p|] eqn:Hp; [|reflexivity].
  destruct (existsSync env p) eqn:Hx; [reflexivity|].
  exfalso. apply H. exists p. auto.
Qed.

Lemma report_isError env a res :
  isError (report env a res) = true <-> resExitCode res <> Some 0%Z.
Proof.
  unfold report. simpl. destruct (resExitCode res) as [z|].
  - destruct (Z.eqb_spec z 0) as [->|Hz]; simpl; split; congruence.
  - split; [discriminate | reflexivity].
Qed.

(** C5. The handler always returns a tool result, never an exception. The
    result is marked as a failure exactly when the entry path is given and
    no file is there, or the spawn throws, or the child's exit code is not
    the number 0 (a killed child has no numeric exit code). With a missing
    entry no child is spawned and the result carries no payload; otherwise
    one child is spawned, and when it settles the result carries the
    payload with its exit code. *)
Theorem debug_failure_cases (env : Env) (a : DebugArgs) :
  exists t,
    result (debug env a) = Ok t /\
    (isError t = true <->
       entryMissing env a \/
       (exists msg, spawnCall env a = Thrown msg) \/
       (exists res, spawnCall env a = Ok res /\ resExitCode res <> Some 0%Z)) /\
    (entryMissing env a ->
       spawned (debug env a) = [] /\ forall p, ~ In (JsonItem p) (content t)) /\
    (~ entryMissing env a ->
       spawned (debug env a) = [(commandOf a, childArgs env a)] /\
       forall res, spawnCall env a = Ok res ->
         t = report env a res /\
         exists p, In (JsonItem p) (content t) /\ exitCode p = resExitCode res).
Proof.
  destruct (entryMissing_dec env a) as [Hm|Hm].
  - destruct (debug_missing env a Hm) as (p & Hp & ->). eexists. split; [reflexivity|].
    simpl. split; [|split].
    + split; auto.
    + intros _. split; [reflexivity|]. intros q [H|[]]. discriminate.
    + intros H. contradiction.
  - rewrite (debug_present env a Hm). unfold runChild. simpl.
    destruct (spawnCall env a) as [res|msg] eqn:S; simpl.
    + exists (report env a res). split; [reflexivity|]. split; [|split].
      * rewrite report_isError. split.
        { intros H. right. right. exists res. auto. }
        { intros [H|[(msg & H)|(res' & H & Hx)]];
            [contradiction | discriminate | now injection H as <-]. }
      * intros H. contradiction.
      * intros _. split; [reflexivity|]. intros res' H. injection H as <-.
        split; [reflexivity|]. eexists. split; [right; left; reflexivity | reflexivity].
    + eexists. split; [reflexivity|]. simpl. split; [|split].
      * split; [|reflexivity]. intros _. right. left. eauto.
      * intros H. contradiction.
      * intros _. split; [reflexivity|]. intros res H. discriminate.
Qed.

(** Scenario 3 of the specification: the entry file is not there. *)
Lemma debug_failure_cases_scenario3 :
  let env := {| processCwd := lit "/srv"; processNodeEnv := None; win32 := false;
                pathResolve := fun ps => last ps [];
                pathBasename := fun p => p; pathExtname := fun _ => [];
                toLowerCase := fun s => s;
                existsSync := fun _ => false;
                execa := fun _ _ _ => Thrown (lit "spawn failed") |} in
  let a := {| argLanguage := node; argEntry := Some (lit "/srv/missing.js");
              argArgs := None; argCwd := None; argTimeoutMs := None |} in
  spawned (debug env a) = [] /\
  exists t, result (debug env a) = Ok t /\ isError t = true /\
            forall p, ~ In (JsonItem p) (content t).
Proof.
  intros env a.
  assert (entryMissing env a) as Hm.
  { exists (lit "/srv/missing.js"). split; reflexivity. }
  destruct (debug_failure_cases env a) as (t & Hr & Hiff & Hmiss & _).
  destruct (Hmiss Hm) as (Hs & Hp).
  split; [exact Hs|]. exists t. split; [exact Hr|]. split; [|exact Hp].
  apply Hiff. now left.
Defined.

(** * Further properties of the parser *)

(** ** Which family a text falls in *)

Lemma node_exec_found text : matchesAnchor text -> exists g, exec true nodeRe text = Some g.
Proof.
  intros H. destruct (exec true nodeRe text) as [g|] eqn:E; [eauto|].
  now apply node_exec_complete in E.
Qed.

(** The dispatch of [parseError]: a record is family A exactly when the
    anchor pattern matches the text, whether or not the traceback marker is
    there too; and no record is returned exactly when neither the anchor
    matches nor the marker occurs. *)
Theorem parseError_dispatch (text : jsstring) :
  (forall r, parseError (Some text) = Some r ->
     (runtime r = node <-> matchesAnchor text) /\
     (runtime r = python <-> ~ matchesAnchor text /\ occurs tracebackMarker text)) /\
  (parseError (Some text) = None <->
     ~ matchesAnchor text /\ ~ occurs tracebackMarker text).
Proof.
  split.
  - intros r Hr. destruct (runtime r) eqn:Rt.
    + destruct (parseError_node_inv _ _ Hr Rt) as (g & Hg & _).
      assert (matchesAnchor text) as Hm.
      { destruct (node_exec_some _ _ Hg) as (pre & ws & H).
        exists pre, (group 1 g), ws, (group 2 g), (group 3 g). exact H. }
      split; [tauto|]. split; [discriminate | tauto].
    + destruct (parseError_python_inv _ _ Hr Rt) as (Hn & Ht & _).
      apply node_exec_complete in Hn. apply marker_test in Ht.
      split; [split; [discriminate | tauto] | tauto].
  - split.
    + intros Hn. unfold parseError in Hn. destruct text as [|c text].
      * split; [apply node_exec_complete; reflexivity|].
        apply not_occurs_nil. discriminate.
      * destruct (exec true nodeRe (c :: text)) eqn:E; [discriminate|].
        destruct (test true tracebackRe (c :: text)) eqn:T; [discriminate|].
        split; [now apply node_exec_complete|].
        intros H. apply marker_test in H. congruence.
    + intros (Ha & Hm). unfold parseError. destruct text as [|c text]; [reflexivity|].
      rewrite (node_exec_none _ Ha).
      destruct (test true tracebackRe (c :: text)) eqn:T; [|reflexivity].
      apply marker_test in T. contradiction.
Qed.

(** A traceback followed by a blank line is read as family A: its last line
    is an anchor line. *)
Lemma parseError_dispatch_traceback_then_blank :
  exists r,
    parseError (Some (tracebackMarker ++ NL :: lit "ValueError: bad" ++ NL ::
                      lit "  " ++ [NL])) = Some r /\
    runtime r = node.
Proof.
  match goal with |- exists r, parseError (Some ?t) = _ /\ _ => set (text := t) end.
  destruct (parseError (Some text)) as [r|] eqn:Hr; [|discriminate].
  exists r. split; [reflexivity|].
  destruct (parseError_dispatch text) as (H & _).
  apply (H r Hr).
  exists (tracebackMarker ++ [NL]), (lit "ValueError"), (lit " "), (lit "bad"),
         (lit "  " ++ [NL]).
  repeat split; try reflexivity; try discriminate.
  - right. exists tracebackMarker, NL. split; reflexivity.
  - exists (lit "Value"). split; reflexivity.
Defined.

(** ** What every record holds *)

Lemma errorId_no_NL kind : errorId kind -> ~ In NL kind.
Proof.
  intros (w & -> & Hw) Hin. apply in_app_or in Hin as [Hin|Hin].
  - rewrite forallb_forall in Hw. specialize (Hw NL Hin). discriminate.
  - simpl in Hin. intuition discriminate.
Qed.

Lemma simpleId_no_NL kind : simpleId kind -> ~ In NL kind.
Proof.
  intros (c & t & -> & Hc & Ht) [E|Hin]; [rewrite E in Hc; discriminate|].
  rewrite forallb_forall in Ht. specialize (Ht NL Hin). discriminate.
Qed.

Lemma notNL_no_NL s : forallb notNL s = true -> ~ In NL s.
Proof.
  intros H Hin. rewrite forallb_forall in H. specialize (H NL Hin). discriminate.
Qed.

Lemma dot_no_NL s : forallb dot s = true -> ~ In NL s.
Proof.
  intros H Hin. rewrite forallb_forall in H. specialize (H NL Hin). discriminate.
Qed.

(** Every family-A record has a kind that is an identifier ending in Error,
    a non-empty message, a non-empty stack, and, when it has a file, a file
    that starts with a slash and holds neither colon nor newline. *)
Theorem family_A_record (input : option jsstring) (r : ErrorRecord) :
  parseError input = Some r -> runtime r = node ->
  errorId (type r) /\ message r <> [] /\ stack r <> [] /\
  forall f, file r = Some f ->
    exists p, f = SLASH :: p /\ p <> [] /\ forallb notColonNL p = true.
Proof.
  destruct input as [text|]; [|discriminate]. intros Hr Rt.
  destruct (parseError_node_inv _ _ Hr Rt) as (g & Hg & Ty & Ms & St & Fi & _).
  destruct (node_exec_some _ _ Hg) as (pre & ws & _ & _ & Hk & _ & Hne & _ & Hs).
  rewrite <- Ty in Hk. rewrite <- Ms in Hne. rewrite <- St in Hs.
  repeat (split; [assumption|]).
  intros f Hf. rewrite Fi in Hf.
  destruct (exec false locRe (group 3 g)) as [l|] eqn:El; [|discriminate].
  simpl in Hf. injection Hf as <-.
  destruct (loc_exec_some _ _ El) as (a & p & d1 & d2 & rest & _ & (Hp & Fp & _) & -> & _).
  exists p. auto.
Qed.

Lemma family_A_record_example :
  exists r,
    parseError (Some (lit "a.b.RangeError:  too deep" ++ NL :: lit "at /srv/a.js:7:3"))
      = Some r /\
    errorId (type r) /\ message r <> [] /\ stack r <> [].
Proof.
  match goal with |- exists r, parseError ?t = _ /\ _ => set (input := t) end.
  destruct (parseError input) as [r|] eqn:Hr; [|discriminate].
  assert (runtime r = node) as Rt.
  { vm_compute in Hr. injection Hr as <-. reflexivity. }
  destruct (family_A_record input r Hr Rt) as (Hk & Hm & Hs & _).
  exists r. auto.
Defined.

Lemma pyFile_complete prev s : frameStarts s -> exists g, run false pyFile prev s = Some g.
Proof.
  intros H. destruct (frameStarts_maximal _ H) as (path & digits & rest & -> & Hok & Hstop).
  destruct (pyFile_intro prev path digits rest Hok Hstop) as (g & Hg & _). eauto.
Qed.

Lemma frame_exec_firstFrame l g :
  exec false pyFile l = Some g ->
  exists path digits,
    firstFrame l path digits /\ group 1 g = path /\ group 2 g = digits.
Proof.
  intros H. apply execFrom_elim in H as (a & s & -> & H & Hearlier).
  apply pyFile_elim in H as (path & digits & rest & -> & Hok & Hstop & G1 & G2).
  exists path, digits. split; [|auto].
  exists a, rest. split; [reflexivity|]. split; [exact Hok|]. split; [exact Hstop|].
  intros a1 a2 E Hne Hs.
  destruct (pyFile_complete (advance None a1) _ Hs) as (g' & Hg').
  rewrite (Hearlier a1 a2 E Hne) in Hg'. discriminate.
Qed.

(** What the loop over the lines leaves in [lastFile]: the first frame
    reference of the last line that has one. *)
Lemma pyFileStep_inv lines f x :
  fold_left pyFileStep lines (None, None) = (Some f, x) ->
  exists before l after digits,
    lines = before ++ l :: after /\ firstFrame l f digits /\
    x = Some (Number digits) /\ forall l', In l' after -> ~ hasFrame l'.
Proof.
  induction lines as [|y lines IH] using rev_ind; [discriminate|].
  rewrite fold_left_app. simpl. unfold pyFileStep at 1.
  destruct (exec false pyFile y) as [m|] eqn:E.
  - intros H. injection H as <- <-.
    destruct (frame_exec_firstFrame _ _ E) as (path & digits & Hf & -> & ->).
    exists lines, y, [], digits.
    split; [reflexivity|]. split; [exact Hf|]. split; [reflexivity|]. intros l' [].
  - intros H. destruct (IH H) as (before & l & after & digits & -> & Hf & Hx & Ha).
    exists before, l, (after ++ [y]), digits.
    split; [|split; [exact Hf|split; [exact Hx|]]].
    + rewrite <- app_assoc. reflexivity.
    + intros l' Hin. apply in_app_or in Hin as [Hin|[<-|[]]]; [now apply Ha|].
      now apply frame_exec_complete.
Qed.

Lemma pyTypeRe_exec_elim l g :
  exec false pyTypeRe l = Some g ->
  kindMessage simpleId l (group 1 g) (group 2 g).
Proof.
  rewrite pyTypeRe_items, exec_Bol, <- pyTypeRe_items. intros H.
  apply pyTypeRe_elim in H as (_ & kind & msg & Hk & -> & ->). exact Hk.
Qed.

(** Every family-B record keeps the whole text as its raw trace; its kind
    is the string Error or a simple identifier; and when it has a file, file
    and line are the two parts of one frame reference: the first one of the
    last line that has any. *)
Theorem family_B_record (text : jsstring) (r : ErrorRecord) :
  parseError (Some text) = Some r -> runtime r = python ->
  stack r = text /\
  (type r = lit "Error" \/ simpleId (type r)) /\
  forall f, file r = Some f ->
    exists before l after digits,
      split NL text = before ++ l :: after /\ firstFrame l f digits /\
      line r = Some (Number digits) /\ forall l', In l' after -> ~ hasFrame l'.
Proof.
  intros Hr Rt. destruct (parseError_python_inv _ _ Hr Rt) as (_ & _ & ->). simpl.
  split; [reflexivity|]. split.
  - destruct (exec false pyTypeRe (lastNonBlank (split NL text))) as [g|] eqn:E;
      [|now left].
    right. apply pyTypeRe_exec_elim in E as (ws & _ & Hid & _). exact Hid.
  - intros f Hf.
    destruct (fold_left pyFileStep (split NL text) (None, None)) as (o, x) eqn:F.
    simpl in Hf. subst o. simpl. now apply pyFileStep_inv.
Qed.

Lemma family_B_record_example :
  exists r,
    parseError (Some (tracebackMarker ++ NL ::
                      lit "  " ++ frameText (lit "/srv/a.py") (lit "12") ++ NL ::
                      lit "  " ++ frameText (lit "/srv/b.py") (lit "7") ++ NL ::
                      lit "KeyError: k")) = Some r /\
    file r = Some (lit "/srv/b.py") /\
    exists digits, line r = Some (Number digits).
Proof.
  match goal with |- exists r, parseError (Some ?t) = _ /\ _ => set (text := t) end.
  destruct (parseError (Some text)) as [r|] eqn:Hr; [|discriminate].
  assert (runtime r = python /\ file r = Some (lit "/srv/b.py")) as (Rt & Hf).
  { vm_compute in Hr. injection Hr as <-. split; reflexivity. }
  destruct (family_B_record text r Hr Rt) as (_ & _ & H).
  destruct (H _ Hf) as (_ & _ & _ & digits & _ & _ & Hl & _).
  exists r. split; [reflexivity|]. split; [exact Hf|]. eauto.
Defined.

(** ** Kind and message are one-line texts *)

Lemma split_no_sep sep s l : In l (split sep s) -> ~ In sep l.
Proof.
  revert l. induction s as [|c s IH]; intros l Hin.
  - destruct Hin as [<-|[]]. intros [].
  - simpl in Hin. destruct (N.eqb_spec c sep) as [->|Hc].
    + destruct Hin as [<-|Hin]; [intros [] | now apply IH].
    + destruct (split sep s) as [|l0 ls] eqn:E; [now apply split_nonempty in E|].
      destruct Hin as [<-|Hin].
      * intros [H|H]; [congruence|]. apply (IH l0); [now left | exact H].
      * apply IH. now right.
Qed.

Lemma lastNonBlank_no_NL text : ~ In NL (lastNonBlank (split NL text)).
Proof.
  unfold lastNonBlank. destruct (find nonBlank (rev (split NL text))) as [l|] eqn:E.
  - apply find_some in E as (Hin & _). apply in_rev in Hin.
    now apply split_no_sep in Hin.
  - intros [].
Qed.

(** In every record the kind and the message hold no newline. *)
Theorem record_fields_single_line (input : option jsstring) (r : ErrorRecord) :
  parseError input = Some r -> ~ In NL (type r) /\ ~ In NL (message r).
Proof.
  destruct input as [text|]; [|discriminate]. intros Hr.
  destruct (runtime r) eqn:Rt.
  - destruct (parseError_node_inv _ _ Hr Rt) as (g & Hg & Ty & Ms & _).
    destruct (node_exec_some _ _ Hg) as (pre & ws & _ & _ & Hk & _ & _ & Hmsg & _).
    rewrite Ty, Ms. split; [now apply errorId_no_NL | now apply notNL_no_NL].
  - destruct (parseError_python_inv _ _ Hr Rt) as (_ & _ & ->). simpl.
    destruct (exec false pyTypeRe (lastNonBlank (split NL text))) as [g|] eqn:E.
    + apply pyTypeRe_exec_elim in E as (ws & _ & Hid & _ & _ & Hmsg).
      split; [now apply simpleId_no_NL | now apply dot_no_NL].
    + split; [simpl; intuition discriminate | apply lastNonBlank_no_NL].
Qed.

Lemma record_fields_single_line_example :
  exists r,
    parseError (Some (tracebackMarker ++ NL :: lit "boom" ++ NL :: lit "  ")) = Some r /\
    message r = lit "boom" /\ ~ In NL (message r).
Proof.
  match goal with |- exists r, parseError ?t = _ /\ _ => set (input := t) end.
  destruct (parseError input) as [r|] eqn:Hr; [|discriminate].
  destruct (record_fields_single_line input r Hr) as (_ & Hm).
  exists r. split; [reflexivity|]. split; [|exact Hm].
  vm_compute in Hr. injection Hr as <-. reflexivity.
Defined.

(** ** One-line texts *)

Lemma singleLine_no_anchor text : singleLine text -> ~ matchesAnchor text.
Proof.
  intros (l & Hl & Ht) (pre & kind & ws & msg & stk & E & _ & _ & _ & _ & _ & Hs).
  assert (exists a c b, text = a ++ NL :: c :: b) as (a & c & b & E').
  { destruct stk as [|c stk]; [congruence|].
    exists (pre ++ kind ++ [COLON] ++ ws ++ msg), c, stk.
    rewrite E. repeat rewrite <- app_assoc. reflexivity. }
  clear E. destruct Ht as [-> | ->].
  - apply Hl. rewrite E'. apply in_or_app. right. now left.
  - destruct (exists_last (l := c :: b) ltac:(discriminate)) as (b' & z & Eb).
    rewrite Eb in E'. change (a ++ NL :: b' ++ [z]) with (a ++ (NL :: b') ++ [z]) in E'.
    rewrite app_assoc in E'. apply app_inj_tail in E' as [-> _].
    apply Hl. apply in_or_app. right. now left.
Qed.

(** A text of one line, with or without its final newline, is never read
    as family A: without the traceback marker [parseError] returns nothing
    for it, whatever the line says. *)
Theorem single_line_not_family_A (text : jsstring) :
  singleLine text ->
  (forall r, parseError (Some text) = Some r -> runtime r = python) /\
  (~ occurs tracebackMarker text -> parseError (Some text) = None).
Proof.
  intros Hs. pose proof (singleLine_no_anchor _ Hs) as Hn. split.
  - intros r Hr. destruct (runtime r) eqn:Rt; [|reflexivity]. exfalso.
    destruct (parseError_node_inv _ _ Hr Rt) as (g & Hg & _).
    rewrite (node_exec_none _ Hn) in Hg. discriminate.
  - intros Hm. unfold parseError. destruct text as [|c text]; [reflexivity|].
    rewrite (node_exec_none _ Hn).
    destruct (test true tracebackRe (c :: text)) eqn:T; [|reflexivity].
    apply marker_test in T. contradiction.
Qed.

Lemma single_line_not_family_A_example :
  parseError (Some (lit "TypeError: x is not a function" ++ [NL])) = None.
Proof.
  apply single_line_not_family_A.
  - exists (lit "TypeError: x is not a function"). split; [|now right].
    vm_compute. intuition discriminate.
  - intros H. apply (occurs_In _ _ 40) in H; [|vm_compute; tauto].
    vm_compute in H. intuition discriminate.
Defined.

(** * Further properties of [summarizeStack] *)

Lemma nodeLineRe_exec_elim l g :
  exec false nodeLineRe l = Some g ->
  kindMessage errorId l (group 1 g) (group 2 g).
Proof.
  rewrite nodeLineRe_items, exec_Bol, <- nodeLineRe_items. intros H.
  apply nodeLineRe_elim in H as (_ & kind & msg & Hk & -> & ->). exact Hk.
Qed.

Lemma firstNonBlank_found text l :
  find nonBlank (split NL text) = Some l -> firstNonBlankLine text l.
Proof.
  intros H. apply find_split in H as (before & after & E & Hl & Hb).
  exists before, after. split; [exact E|]. split; [now apply nonBlank_blank|].
  now apply blank_Forall.
Qed.

Lemma firstNonBlank_none text :
  find nonBlank (split NL text) = None -> Forall blank (split NL text).
Proof.
  intros H. apply Forall_forall. intros l Hl. apply nonBlank_false.
  apply (find_none _ _ H l Hl).
Qed.

Lemma summarize_error stack l kind msg :
  firstNonBlankLine stack l -> kindMessage errorId l kind msg ->
  summarizeStack stack = kind ++ lit ": " ++ msg.
Proof.
  intros Hl Hk. apply firstNonBlank_intro in Hl. unfold summarizeStack. rewrite Hl.
  destruct (nodeLine_exec_some _ _ _ Hk) as (g & -> & -> & ->).
  destruct Hk as (_ & _ & Hid & _). now rewrite (errorId_truthy _ Hid).
Qed.

Lemma summarize_simple stack l kind msg :
  firstNonBlankLine stack l ->
  (forall k m, ~ kindMessage errorId l k m) -> kindMessage simpleId l kind msg ->
  summarizeStack stack = kind ++ lit ": " ++ msg.
Proof.
  intros Hl Hn Hk. apply firstNonBlank_intro in Hl. unfold summarizeStack. rewrite Hl.
  rewrite (nodeLine_exec_none _ Hn).
  destruct (pyType_exec_some _ _ _ Hk) as (g & -> & -> & ->).
  destruct Hk as (_ & _ & Hid & _). now rewrite (simpleId_truthy _ Hid).
Qed.

Lemma summarize_raw stack l :
  firstNonBlankLine stack l ->
  (forall k m, ~ kindMessage errorId l k m) ->
  (forall k m, ~ kindMessage simpleId l k m) ->
  summarizeStack stack = l.
Proof.
  intros Hl Hn1 Hn2. pose proof Hl as (_ & _ & _ & Hnb & _).
  apply firstNonBlank_intro in Hl. unfold summarizeStack. rewrite Hl.
  rewrite (nodeLine_exec_none _ Hn1), (pyType_exec_none _ Hn2).
  now rewrite (nonBlank_truthy_line _ Hnb).
Qed.

Lemma summarize_blank stack :
  Forall blank (split NL stack) -> summarizeStack stack = firstn 200 stack.
Proof.
  intros Hb. unfold summarizeStack.
  rewrite find_all_false by now apply blank_Forall.
  assert (exec false nodeLineRe [] = None) as -> by reflexivity.
  assert (exec false pyTypeRe [] = None) as -> by reflexivity.
  simpl truthy. cbv iota. now apply slice0_firstn.
Qed.

(** The four ways [summarizeStack] can go. *)
Lemma summarizeStack_cases stack :
  (Forall blank (split NL stack) /\ summarizeStack stack = firstn 200 stack) \/
  exists l, firstNonBlankLine stack l /\
    ((exists kind msg, kindMessage errorId l kind msg /\
        summarizeStack stack = kind ++ lit ": " ++ msg) \/
     ((forall k m, ~ kindMessage errorId l k m) /\
      exists kind msg, kindMessage simpleId l kind msg /\
        summarizeStack stack = kind ++ lit ": " ++ msg) \/
     ((forall k m, ~ kindMessage errorId l k m) /\
      (forall k m, ~ kindMessage simpleId l k m) /\
      summarizeStack stack = l)).
Proof.
  destruct (find nonBlank (split NL stack)) as [l|] eqn:F.
  - right. apply firstNonBlank_found in F. exists l. split; [exact F|].
    destruct (exec false nodeLineRe l) as [g|] eqn:E1.
    + left. apply nodeLineRe_exec_elim in E1.
      exists (group 1 g), (group 2 g). split; [exact E1|]. eapply summarize_error; eassumption.
    + assert (forall k m, ~ kindMessage errorId l k m) as Hn1.
      { intros k m Hk. destruct (nodeLine_exec_some _ _ _ Hk) as (g & Hg & _). congruence. }
      right. destruct (exec false pyTypeRe l) as [g|] eqn:E2.
      * left. split; [exact Hn1|]. apply pyTypeRe_exec_elim in E2.
        exists (group 1 g), (group 2 g). split; [exact E2|].
        eapply summarize_simple; eassumption.
      * right. pose proof (pyType_exec_complete _ E2) as Hn2.
        repeat split; auto. now apply summarize_raw.
  - left. apply firstNonBlank_none in F. split; [exact F|]. now apply summarize_blank.
Qed.

(** The summary is empty only for the empty text. *)
Theorem summarizeStack_empty (stack : jsstring) :
  summarizeStack stack = [] <-> stack = [].
Proof.
  split; [|intros ->; reflexivity].
  destruct (summarizeStack_cases stack)
    as [(_ & ->) | (l & Hl & [(k & m & _ & ->) | [(_ & k & m & _ & ->) | (_ & _ & ->)]])].
  - destruct stack; [reflexivity | discriminate].
  - destruct k; discriminate.
  - destruct k; discriminate.
  - intros ->. destruct Hl as (_ & _ & _ & Hnb & _). now elim Hnb.
Qed.

(** ** Summarising a summary *)

Lemma split_single l : ~ In NL l -> split NL l = [l].
Proof.
  induction l as [|c l IH]; intros H; [reflexivity|].
  simpl. destruct (N.eqb_spec c NL) as [->|_]; [elim H; now left|].
  rewrite IH; [reflexivity|]. intros Hin. apply H. now right.
Qed.

Lemma split_first_line l rest :
  ~ In NL l -> split NL (l ++ NL :: rest) = l :: split NL rest.
Proof.
  induction l as [|c l IH]; intros H; [reflexivity|].
  simpl. destruct (N.eqb_spec c NL) as [->|_]; [elim H; now left|].
  rewrite IH; [reflexivity|]. intros Hin. apply H. now right.
Qed.

Lemma single_line_first l : ~ In NL l -> ~ blank l -> firstNonBlankLine l l.
Proof.
  intros Hl Hnb. exists [], []. rewrite (split_single _ Hl). auto.
Qed.

Lemma not_blank_with c l : In c l -> isSpace c = false -> ~ blank l.
Proof.
  intros Hin Hc Hb. unfold blank in Hb. rewrite forallb_forall in Hb.
  rewrite (Hb c Hin) in Hc. discriminate.
Qed.

Lemma errorId_not_blank kind rest : errorId kind -> ~ blank (kind ++ rest).
Proof.
  intros (w & -> & _). apply (not_blank_with 69); [|reflexivity].
  apply in_or_app. left. apply in_or_app. right. now left.
Qed.

Lemma isAlpha_not_space c : isAlpha_ c = true -> isSpace c = false.
Proof.
  unfold isAlpha_, isSpace, isLineTerminator, between. intros H.
  repeat (apply orb_prop in H as [H|H]);
    repeat (apply andb_prop in H as [? ?]);
    repeat match goal with
           | H : (_ <=? _) = true |- _ => apply N.leb_le in H
           | H : (_ =? _) = true |- _ => apply N.eqb_eq in H
           end;
    repeat (apply orb_false_intro);
    try (apply andb_false_iff);
    try (apply N.eqb_neq; lia);
    try (left; apply N.leb_gt; lia).
Qed.

Lemma simpleId_not_blank kind rest : simpleId kind -> ~ blank (kind ++ rest).
Proof.
  intros (c & t & -> & Hc & _). apply (not_blank_with c); [now left|].
  now apply isAlpha_not_space.
Qed.

Lemma errorId_no_colon kind : errorId kind -> ~ In COLON kind.
Proof.
  intros (w & -> & Hw) Hin. apply in_app_or in Hin as [Hin|Hin].
  - rewrite forallb_forall in Hw. specialize (Hw COLON Hin). discriminate.
  - simpl in Hin. intuition discriminate.
Qed.

Lemma simpleId_no_colon kind : simpleId kind -> ~ In COLON kind.
Proof.
  intros (c & t & -> & Hc & Ht) [E|Hin]; [rewrite E in Hc; discriminate|].
  rewrite forallb_forall in Ht. specialize (Ht COLON Hin). discriminate.
Qed.

(** Two texts that agree up to their first colon. *)
Lemma before_colon (k k' x y : jsstring) :
  ~ In COLON k -> ~ In COLON k' -> k ++ COLON :: x = k' ++ COLON :: y ->
  k = k' /\ x = y.
Proof.
  revert k'. induction k as [|c k IH]; intros k' Hk Hk' E.
  - destruct k' as [|c' k']; simpl in E.
    + injection E as ->. auto.
    + injection E as <- _. elim Hk'. now left.
  - destruct k' as [|c' k']; simpl in E.
    + injection E as -> _. elim Hk. now left.
    + injection E as -> E. destruct (IH k') as (-> & ->); auto.
      * intros H. apply Hk. now right.
      * intros H. apply Hk'. now right.
Qed.

Lemma kindMessage_line_no_NL ok l kind msg :
  kindMessage ok l kind msg -> ~ In NL kind -> ~ In NL (kind ++ lit ": " ++ msg).
Proof.
  intros (ws & _ & _ & _ & _ & Hmsg) Hk Hin.
  apply in_app_or in Hin as [Hin|Hin]; [contradiction|].
  simpl in Hin. destruct Hin as [H|[H|Hin]]; try discriminate.
  revert Hin. now apply dot_no_NL.
Qed.

Lemma kindMessage_normal (ok : jsstring -> Prop) l kind msg :
  kindMessage ok l kind msg -> kindMessage ok (kind ++ lit ": " ++ msg) kind msg.
Proof.
  intros (ws & _ & Hid & _ & Hstop & Hmsg). exists (lit " "). repeat split; auto.
Qed.

Lemma blank_lines_chars s : Forall blank (split NL s) <-> forallb isSpace s = true.
Proof.
  split.
  - intros H. apply forallb_forall. intros c Hc.
    destruct (N.eqb_spec c NL) as [->|Hn]; [reflexivity|].
    destruct (split_covers NL s c Hc Hn) as (l & Hl & Hcl).
    rewrite Forall_forall in H. specialize (H l Hl). unfold blank in H.
    rewrite forallb_forall in H. now apply H.
  - intros H. induction s as [|c s IH]; [repeat constructor|].
    simpl in H. apply andb_prop in H as [Hc Hs]. specialize (IH Hs). simpl.
    destruct (c =? NL); [constructor; [reflexivity | exact IH]|].
    destruct (split NL s) as [|l ls]; [repeat constructor; unfold blank; simpl; now rewrite Hc|].
    inversion IH as [|? ? Hl Hls]; subst. constructor; [|exact Hls].
    unfold blank in *. simpl. now rewrite Hc.
Qed.

(** [summarizeStack] is idempotent: a summary is its own summary. *)
Theorem summarizeStack_idempotent (stack : jsstring) :
  summarizeStack (summarizeStack stack) = summarizeStack stack.
Proof.
  destruct (summarizeStack_cases stack)
    as [(Hb & ->) | (l & Hl & [(k & m & Hk & ->) | [(Hn & k & m & Hk & ->) | (Hn1 & Hn2 & ->)]])].
  - rewrite summarize_blank.
    + rewrite firstn_firstn. now rewrite Nat.min_id.
    + apply blank_lines_chars. apply blank_lines_chars in Hb.
      apply forallb_forall. intros c Hc. rewrite forallb_forall in Hb.
      apply Hb. rewrite <- (firstn_skipn 200 stack). apply in_or_app. now left.
  - pose proof Hk as (_ & _ & Hid & _).
    apply summarize_error with (l := k ++ lit ": " ++ m).
    + apply single_line_first.
      * eapply kindMessage_line_no_NL; [exact Hk | now apply errorId_no_NL].
      * now apply errorId_not_blank.
    + now apply kindMessage_normal with (l := l).
  - pose proof Hk as (ws & El & Hid & Hws & Hstop & Hmsg).
    apply summarize_simple with (l := k ++ lit ": " ++ m).
    + apply single_line_first.
      * eapply kindMessage_line_no_NL; [exact Hk | now apply simpleId_no_NL].
      * now apply simpleId_not_blank.
    + intros k' m' (ws' & E' & Hid' & Hws' & Hstop' & Hmsg').
      apply (before_colon k k') in E' as (<- & _);
        [| now apply simpleId_no_colon | now apply errorId_no_colon].
      apply (Hn k m). exists ws. auto.
    + now apply kindMessage_normal with (l := l).
  - pose proof Hl as (before & after & E & Hnb & _).
    apply summarize_raw; auto. apply single_line_first; [|exact Hnb].
    apply (split_no_sep NL stack). rewrite E. apply in_or_app. right. now left.
Qed.

(** ** The two tools agree *)

Lemma dot_notNL s : forallb dot s = true -> forallb notNL s = true.
Proof.
  intros H. apply forallb_forall. intros c Hc. rewrite forallb_forall in H.
  specialize (H c Hc). unfold dot, isLineTerminator in H. unfold notNL.
  destruct (c =? 10); [discriminate | reflexivity].
Qed.

Lemma lineStart_nil : lineStart [].
Proof. now left. Qed.

(** When the text begins with the anchor line, and the message holds no
    line terminator, the summary of the text is the kind and the message of
    the record [parseError] returns for it, joined by a colon and a space:
    what the report prints after [Error: ]. *)
Theorem summary_matches_record (w ws msg stk : jsstring) :
  forallb isWordDot w = true ->
  forallb isSpace ws = true -> forallb notNL ws = true ->
  msg <> [] -> stopsAt isSpace msg -> forallb dot msg = true ->
  stk <> [] ->
  let text := (w ++ lit "Error") ++ [COLON] ++ ws ++ msg ++ [NL] ++ stk in
  exists r,
    parseError (Some text) = Some r /\ runtime r = node /\
    summarizeStack text = type r ++ lit ": " ++ message r /\
    hd [] (errorParts (Some r)) = lit "Error: " ++ summarizeStack text.
Proof.
  intros Hw Hws Hwsn Hne Hstop Hmsg Hs text.
  destruct (node_exec_anchor [] w ws msg stk) as (g & Hg & G1 & G2 & G3); auto.
  { apply lineStart_nil. }
  { apply not_occurs_nil. discriminate. }
  { now apply dot_notNL. }
  destruct (parseError_node_intro _ _ Hg) as (r & Hr & Rt & Ty & Ms & _).
  exists r. split; [exact Hr|]. split; [exact Rt|].
  rewrite G1 in Ty. rewrite G2 in Ms.
  assert (summarizeStack text = (w ++ lit "Error") ++ lit ": " ++ msg) as E.
  { assert (errorId (w ++ lit "Error")) as Hid by (exists w; auto).
    assert (text = ((w ++ lit "Error") ++ [COLON] ++ ws ++ msg) ++ NL :: stk) as Et.
    { unfold text. repeat rewrite <- app_assoc. reflexivity. }
    apply summarize_error with (l := (w ++ lit "Error") ++ [COLON] ++ ws ++ msg).
    - exists [], (split NL stk). split; [|split; [|constructor]].
      + rewrite Et. apply split_first_line.
        intros Hin. rewrite !in_app_iff in Hin.
        destruct Hin as [Hin|[Hin|[Hin|Hin]]].
        * apply (errorId_no_NL _ Hid). now apply in_or_app.
        * destruct Hin as [H|[]]. discriminate.
        * revert Hin. now apply notNL_no_NL.
        * revert Hin. now apply dot_no_NL.
      + now apply errorId_not_blank.
    - exists ws. auto. }
  split.
  - now rewrite Ty, Ms.
  - simpl. rewrite E, Ty, Ms. reflexivity.
Qed.

Lemma summary_matches_record_example :
  summarizeStack (lit "TypeError: boom" ++ NL :: lit "    at f (/srv/a.js:1:2)")
    = lit "TypeError: boom".
Proof.
  destruct (summary_matches_record (lit "Type") (lit " ") (lit "boom")
              (lit "    at f (/srv/a.js:1:2)")
              eq_refl eq_refl eq_refl ltac:(discriminate) eq_refl eq_refl
              ltac:(discriminate))
    as (r & Hr & _ & Hsum & _).
  change (parseError (Some (lit "TypeError: boom" ++ NL :: lit "    at f (/srv/a.js:1:2)"))
          = Some r) in Hr.
  change (summarizeStack (lit "TypeError: boom" ++ NL :: lit "    at f (/srv/a.js:1:2)")
          = type r ++ lit ": " ++ message r) in Hsum.
  rewrite Hsum. vm_compute in Hr. injection Hr as <-. reflexivity.
Defined.

(** * Further properties of the report *)

(** ** [truncate] at any budget *)

Lemma truncate_long text max :
  (max < Z.of_nat (List.length text))%Z ->
  truncate text max = slice0 text (max - 20) ++ truncationMark.
Proof.
  intros L. unfold truncate.
  destruct (Z.leb_spec (Z.of_nat (List.length text)) max); [lia | reflexivity].
Qed.

Lemma truncate_short text max :
  (Z.of_nat (List.length text) <= max)%Z -> truncate text max = text.
Proof.
  intros L. unfold truncate.
  destruct (Z.leb_spec (Z.of_nat (List.length text)) max); [reflexivity | lia].
Qed.

Lemma slice0_length s e :
  Z.of_nat (List.length (slice0 s e)) =
  let n := Z.of_nat (List.length s) in
  if (e <? 0)%Z then Z.max (n + e) 0 else Z.min e n.
Proof.
  unfold slice0. cbv zeta. rewrite length_firstn.
  destruct (Z.ltb_spec e 0); lia.
Qed.

(** A text longer than the budget is cut to a head of the text followed by
    the marker. The result stays within the budget exactly when the budget
    is at least 20; then truncating again changes nothing. *)
Theorem truncate_budget (text : jsstring) (max : Z) :
  (max < Z.of_nat (List.length text))%Z ->
  (exists head tail, text = head ++ tail /\ truncate text max = head ++ truncationMark) /\
  ((Z.of_nat (List.length (truncate text max)) <= max)%Z <-> (20 <= max)%Z) /\
  ((20 <= max)%Z -> truncate (truncate text max) max = truncate text max).
Proof.
  intros L. rewrite (truncate_long _ _ L).
  assert (Z.of_nat (List.length (slice0 text (max - 20) ++ truncationMark)) =
          Z.of_nat (List.length (slice0 text (max - 20))) + 13)%Z as Hlen.
  { rewrite length_app, truncationMark_length. lia. }
  pose proof (slice0_length text (max - 20)) as Hs. cbv zeta in Hs.
  split; [|split].
  - exists (slice0 text (max - 20)), (skipn (List.length (slice0 text (max - 20))) text).
    split; [|reflexivity]. unfold slice0 at 1.
    set (n := Z.to_nat _).
    assert (List.length (slice0 text (max - 20)) = Nat.min n (List.length text)) as ->.
    { unfold slice0. fold n. apply length_firstn. }
    destruct (Nat.le_ge_cases n (List.length text)).
    + rewrite Nat.min_l by assumption. symmetry. apply firstn_skipn.
    + rewrite Nat.min_r by assumption. rewrite firstn_all2, skipn_all by assumption.
      now rewrite app_nil_r.
  - rewrite Hlen, Hs. destruct (Z.ltb_spec (max - 20) 0); lia.
  - intros H20. apply truncate_short. rewrite Hlen, Hs.
    destruct (Z.ltb_spec (max - 20) 0); lia.
Qed.

Lemma truncate_budget_example :
  let text := lit "0123456789abcdefghijklmnopqrstuvwxyz" in
  (Z.of_nat (List.length (truncate text 30)) <= 30)%Z /\
  ~ (Z.of_nat (List.length (truncate text 15)) <= 15)%Z.
Proof.
  intros text. split.
  - destruct (truncate_budget text 30) as (_ & H & _); [simpl; lia|].
    apply H. lia.
  - destruct (truncate_budget text 15) as (_ & H & _); [simpl; lia|].
    intros L. apply H in L. lia.
Defined.

(** ** The error location in the report *)

Lemma firstFrame_path l path digits : firstFrame l path digits -> path <> [].
Proof. intros (a & rest & _ & (Hp & _) & _). exact Hp. Qed.

(** A record with a file has a non-empty file and a line number. *)
Lemma record_file_line input r f :
  parseError input = Some r -> file r = Some f ->
  f <> [] /\ exists n, line r = Some n.
Proof.
  destruct input as [text|]; [|discriminate]. intros Hr Hf.
  destruct (runtime r) eqn:Rt.
  - destruct (parseError_node_inv _ _ Hr Rt) as (g & _ & _ & _ & _ & Fi & Li & _).
    rewrite Fi in Hf. rewrite Li.
    destruct (exec false locRe (group 3 g)) as [l|] eqn:El; [|discriminate].
    simpl in Hf. injection Hf as <-.
    destruct (loc_exec_some _ _ El) as (a & p & d1 & d2 & rest & _ & _ & -> & _).
    split; [discriminate | simpl; eauto].
  - destruct (parseError_python_inv _ _ Hr Rt) as (_ & _ & E). rewrite E in Hf |- *.
    simpl in Hf |- *.
    destruct (fold_left pyFileStep (split NL text) (None, None)) as (o, x) eqn:F.
    simpl in Hf |- *. subst o.
    destruct (pyFileStep_inv _ _ _ F) as (_ & l & _ & digits & _ & Hfr & -> & _).
    split; [eapply firstFrame_path; eassumption | eauto].
Qed.

(** When [parseError] finds a file in the child's stderr, the text of the
    handler's report has the line [File: file:line], the line number
    printed as the template literal prints it (the placeholder for a missing
    line number is never used), and the last content item is the resource
    link to that file. *)
Theorem report_error_location (env : Env) (a : DebugArgs) (res : ExecaResult)
    (r : ErrorRecord) (f : jsstring) :
  parseError (Some (resStderr res)) = Some r -> file r = Some f ->
  exists n payload links before after,
    line r = Some n /\
    content (report env a res) =
      TextItem (renderSummary payload) :: JsonItem payload ::
      links ++ [resourceLink env f (lit "Likely error location")] /\
    error payload = Some r /\
    renderSummary payload =
      before ++ [NL] ++ (lit "File: " ++ f ++ [COLON] ++ numberToString n) ++ after /\
    (after = [] \/ exists rest, after = NL :: rest).
Proof.
  intros Hr Hf. destruct (record_file_line _ _ _ Hr Hf) as (Hne & n & Hl).
  assert (truthy f = true) as Tf by (destruct f; [congruence | reflexivity]).
  exists n.
  set (payload := {| language := argLanguage a;
                     command := join (lit " ") (commandOf a :: childArgs env a);
                     cwd := workingDir env a;
                     exitCode := resExitCode res;
                     timedOut := resTimedOut res;
                     stdout := resStdout res;
                     stderr := resStderr res;
                     error := Some r |}).
  exists payload.
  eexists.
  set (sections :=
         (if truthy (trim (stdout payload))
          then [lit "STDOUT:" ++ [NL] ++ truncate (stdout payload) 4000] else []) ++
         (if truthy (trim (stderr payload))
          then [lit "STDERR:" ++ [NL] ++ truncate (stderr payload) 4000] else [])).
  set (head := [lit "Command: " ++ command payload;
                lit "CWD: " ++ cwd payload;
                lit "Exit: " ++
                  match exitCode payload with Some z => showZ z | None => lit "null" end ++
                  (if timedOut payload then lit " (timed out)" else []);
                lit "Error: " ++ type r ++ lit ": " ++ message r]).
  assert (renderParts payload =
          head ++ (lit "File: " ++ f ++ [COLON] ++ numberToString n) :: sections) as E.
  { unfold renderParts. change (error payload) with (Some r). unfold errorParts.
    rewrite Hf, Tf, Hl. reflexivity. }
  exists (join [NL] head),
         (match sections with [] => [] | _ :: _ => [NL] ++ join [NL] sections end).
  split; [exact Hl|]. split; [|split; [reflexivity|split]].
  - unfold report. cbv zeta. rewrite Hr. fold payload. simpl content.
    unfold given at 2. rewrite Hf, Tf. reflexivity.
  - unfold renderSummary. rewrite E. rewrite join_around by discriminate.
    rewrite <- !app_assoc. reflexivity.
  - destruct sections; [now left | right; eexists; reflexivity].
Qed.

Lemma report_error_location_example :
  let res := {| resStdout := []; resExitCode := Some 1%Z; resTimedOut := false;
                resStderr := lit "Error: boom" ++ NL ::
                             lit "    at /srv/a.js:9007199254740993:9" |} in
  let env := {| processCwd := lit "/srv"; processNodeEnv := None; win32 := false;
                pathResolve := fun ps => last ps [];
                pathBasename := fun p => p; pathExtname := fun _ => lit ".js";
                toLowerCase := fun s => s;
                existsSync := fun _ => true;
                execa := fun _ _ _ => Ok res |} in
  let a := {| argLanguage := node; argEntry := None; argArgs := None;
              argCwd := None; argTimeoutMs := None |} in
  exists payload before after,
    In (JsonItem payload) (content (report env a res)) /\
    renderSummary payload =
      before ++ [NL] ++ lit "File: /srv/a.js:9007199254740992" ++ after.
Proof.
  intros res env a.
  destruct (parseError (Some (resStderr res))) as [r|] eqn:Hr; [|discriminate].
  assert (file r = Some (lit "/srv/a.js") /\
          line r = Some (Fin 9007199254740992)) as (Hf & Hl).
  { vm_compute in Hr. injection Hr as <-. split; reflexivity. }
  destruct (report_error_location env a res r _ Hr Hf)
    as (n & payload & links & before & after & Hn & Hc & _ & Hin & _).
  exists payload, before, after. split.
  - rewrite Hc. right. now left.
  - rewrite Hl in Hn. injection Hn as <-. exact Hin.
Defined.

(** ** Resource links *)

Lemma resourceLink_shape env p d u n d' m :
  resourceLink env p d = ResourceLink u n d' m ->
  startsWith (lit "file://") u /\ n <> [] /\ d' = d /\
  u = pathToFileUri env p /\ m = guessMime env p.
Proof.
  unfold resourceLink. intros H. injection H as <- <- <- <-.
  assert (startsWith (lit "file://") (pathToFileUri env p)) as Hu.
  { unfold pathToFileUri. destruct (win32 env).
    - exists (SLASH :: pathResolve env [p]). reflexivity.
    - exists (pathResolve env [p]). reflexivity. }
  repeat split; auto.
  destruct (truthy (pathBasename env p)) eqn:T.
  - intros E. rewrite E in T. discriminate.
  - destruct Hu as (rest & ->). discriminate.
Qed.

(** The content of a tool result is one text item when the tool fails
    before or at the spawn, and otherwise the rendered text, the payload,
    and at most two resource links, in that order; every resource link has
    a uri that starts with [file://] and a non-empty name. *)
Theorem debug_content (env : Env) (a : DebugArgs) (t : ToolResult) :
  result (debug env a) = Ok t ->
  ((exists msg, content t = [TextItem msg]) \/
   (exists payload links,
      content t = TextItem (renderSummary payload) :: JsonItem payload :: links /\
      (List.length links <= 2)%nat /\
      forall item, In item links ->
        exists u n d m, item = ResourceLink u n d m)) /\
  forall u n d m, In (ResourceLink u n d m) (content t) ->
    startsWith (lit "file://") u /\ n <> [] /\
    (d = lit "Program entry file" \/ d = lit "Likely error location").
Proof.
  intros Ht.
  assert ((exists msg, content t = [TextItem msg]) \/
          exists res, t = report env a res) as [(msg & Hc) | (res & ->)].
  { unfold debug in Ht. unfold runChild in Ht.
    destruct (given (entryPath env a)) as [p|].
    - destruct (existsSync env p); simpl in Ht.
      + destruct (spawnCall env a) as [res|msg]; simpl in Ht; injection Ht as <-;
          [right; eexists; reflexivity | left; eexists; reflexivity].
      + injection Ht as <-. left. eexists. reflexivity.
    - simpl in Ht.
      destruct (spawnCall env a) as [res|msg]; simpl in Ht; injection Ht as <-;
        [right; eexists; reflexivity | left; eexists; reflexivity]. }
  - split; [left; eauto|]. rewrite Hc. intros u n d m [H|[]]. discriminate.
  - clear Ht. unfold report. cbv zeta. simpl content.
    set (payload := {| language := argLanguage a; command := _ |}).
    set (l1 := match given (entryPath env a) with Some p => _ | None => [] end).
    set (l2 := match given _ with Some f => _ | None => [] end).
    assert (forall item, In item (l1 ++ l2) ->
              exists p d, item = resourceLink env p d /\
                (d = lit "Program entry file" \/ d = lit "Likely error location")) as Hl.
    { intros item Hin. apply in_app_or in Hin as [Hin|Hin].
      - unfold l1 in Hin. destruct (given (entryPath env a)); [|destruct Hin].
        destruct Hin as [<-|[]]. eauto.
      - unfold l2 in Hin.
        match type of Hin with
        | In _ (match ?x with _ => _ end) => destruct x; [|destruct Hin]
        end.
        destruct Hin as [<-|[]]. eauto. }
    split.
    + right. exists payload, (l1 ++ l2). split; [reflexivity|]. split.
      * rewrite length_app. unfold l1, l2.
        destruct (given (entryPath env a));
          match goal with
          | |- context [match ?x with Some _ => _ | None => [] end] => destruct x
          end; simpl; lia.
      * intros item Hin. destruct (Hl item Hin) as (p & d & -> & _).
        unfold resourceLink. eauto.
    + intros u n d m [H|[H|Hin]]; try discriminate.
      destruct (Hl _ Hin) as (p & d' & E & Hd). symmetry in E.
      apply resourceLink_shape in E as (Hu & Hn & -> & _). auto.
Qed.

Lemma debug_content_example :
  let res := {| resStdout := lit "ok"; resExitCode := Some 0%Z; resTimedOut := false;
                resStderr := [] |} in
  let env := {| processCwd := lit "/srv"; processNodeEnv := None; win32 := false;
                pathResolve := fun ps => last ps [];
                pathBasename := fun _ => []; pathExtname := fun _ => lit ".py";
                toLowerCase := fun s => s;
                existsSync := fun _ => true;
                execa := fun _ _ _ => Ok res |} in
  let a := {| argLanguage := python; argEntry := Some (lit "/srv/a.py");
              argArgs := None; argCwd := None; argTimeoutMs := None |} in
  exists t, result (debug env a) = Ok t /\
    forall u n d m, In (ResourceLink u n d m) (content t) -> n <> [].
Proof.
  intros res env a. eexists. split; [reflexivity|].
  intros u n d m Hin.
  eapply (debug_content env a); [reflexivity | exact Hin].
Defined.

(** ** What is spawned *)

(** The options of the one [execa] call. *)
Lemma spawnCall_execa env a :
  spawnCall env a =
    execa env (commandOf a) (childArgs env a)
      {| optCwd := workingDir env a; optReject := false; optTimeout := execTimeout a;
         optEnv := [(lit "FORCE_COLOR", lit "0");
                    (lit "NODE_ENV",
                     match processNodeEnv env with
                     | Some v => v
                     | None => lit "production"
                     end);
                    (lit "PYTHONUNBUFFERED", lit "1")] |}.
Proof. reflexivity. Qed.

(** What [execa] is asked to run decides the result. Without an entry
    (absent, or the empty string) it is asked to run the command with the
    single argument [-V], the caller's [args] being dropped, and the file
    system is not consulted; with an entry whose resolved path exists it is
    asked to run the command with that path followed by the [args]. In both
    cases the tool returns the report of what [execa] returns, or the
    failure text with the message of what it throws; the time limit is the
    caller's, or 15000 ms. *)
Theorem debug_spawn_arguments (env : Env) (a : DebugArgs) (args : list jsstring) :
  (given (argEntry a) = None /\ args = [lit "-V"]) \/
  (exists p, given (entryPath env a) = Some p /\ existsSync env p = true /\
             args = p :: match argArgs a with Some l => l | None => [] end) ->
  forall opts,
    opts = {| optCwd := workingDir env a; optReject := false;
              optTimeout := match argTimeoutMs a with Some t => t | None => 15000%Z end;
              optEnv := [(lit "FORCE_COLOR", lit "0");
                         (lit "NODE_ENV",
                          match processNodeEnv env with
                          | Some v => v
                          | None => lit "production"
                          end);
                         (lit "PYTHONUNBUFFERED", lit "1")] |} ->
    spawned (debug env a) = [(commandOf a, args)] /\
    (forall res, execa env (commandOf a) args opts = Ok res ->
       result (debug env a) = Ok (report env a res)) /\
    (forall msg, execa env (commandOf a) args opts = Thrown msg ->
       result (debug env a) =
         Ok {| content := [TextItem (lit "Failed to execute: " ++ msg)];
               isError := true |}).
Proof.
  intros Hcase opts ->.
  assert (debug env a = runChild env a /\ childArgs env a = args) as (Ed & Ea).
  { destruct Hcase as [(He & ->) | (p & Hp & Hx & ->)].
    - unfold debug, childArgs, entryPath. rewrite He. auto.
    - unfold debug, childArgs. rewrite Hp, Hx. auto. }
  rewrite Ed. unfold runChild. simpl spawned. simpl result.
  rewrite spawnCall_execa, Ea. fold (execTimeout a).
  split; [reflexivity|]. split.
  - intros res ->. reflexivity.
  - intros msg ->. reflexivity.
Qed.

Lemma debug_spawn_arguments_example :
  let res := {| resStdout := lit "Python 3.12.1"; resStderr := [];
                resExitCode := Some 0%Z; resTimedOut := false |} in
  let env := {| processCwd := lit "/srv"; processNodeEnv := None; win32 := false;
                pathResolve := fun ps => last ps [];
                pathBasename := fun p => p; pathExtname := fun _ => [];
                toLowerCase := fun s => s;
                existsSync := fun _ => false;
                execa := fun cmd args _ =>
                           if strEq cmd (lit "python3") &&
                              match args with [x] => strEq x (lit "-V") | _ => false end
                           then Ok res
                           else Thrown (lit "unexpected call") |} in
  let a := {| argLanguage := python; argEntry := Some [];
              argArgs := Some [lit "--verbose"]; argCwd := None;
              argTimeoutMs := None |} in
  spawned (debug env a) = [(lit "python3", [lit "-V"])] /\
  result (debug env a) = Ok (report env a res).
Proof.
  intros res env a.
  destruct (debug_spawn_arguments env a [lit "-V"] (or_introl (conj eq_refl eq_refl))
              _ eq_refl) as (Hs & Hok & _).
  split; [exact Hs|]. apply Hok. reflexivity.
Defined.

(** ** MIME types *)

Lemma strEq_eq a b : strEq a b = true -> a = b.
Proof. unfold strEq. destruct (list_eq_dec N.eq_dec a b); [auto | discriminate]. Qed.

Lemma guessMime_cases env p m :
  guessMime env p = Some m ->
  In (toLowerCase env (pathExtname env p), m)
     [(lit ".ts", lit "text/typescript"); (lit ".tsx", lit "text/tsx");
      (lit ".js", lit "text/javascript"); (lit ".jsx", lit "text/jsx");
      (lit ".py", lit "text/x-python"); (lit ".json", lit "application/json");
      (lit ".md", lit "text/markdown")].
Proof.
  unfold guessMime. cbv zeta.
  repeat match goal with
         | |- (if strEq ?x ?y then _ else _) = _ -> _ =>
             let E := fresh "E" in
             destruct (strEq x y) eqn:E;
             [apply strEq_eq in E; rewrite E; intros H; injection H as <-;
              simpl; tauto|]
         end.
  discriminate.
Qed.

(** [guessMime] answers only for the seven extensions of its table, and the
    answer tells the extension: two paths with the same MIME type have the
    same extension up to letter case. *)
Theorem guessMime_injective (env : Env) (p q m : jsstring) :
  guessMime env p = Some m -> guessMime env q = Some m ->
  toLowerCase env (pathExtname env p) = toLowerCase env (pathExtname env q) /\
  In (toLowerCase env (pathExtname env p))
     [lit ".ts"; lit ".tsx"; lit ".js"; lit ".jsx"; lit ".py"; lit ".json"; lit ".md"].
Proof.
  intros Hp Hq. apply guessMime_cases in Hp. apply guessMime_cases in Hq.
  set (ep := toLowerCase env (pathExtname env p)) in *.
  set (eq := toLowerCase env (pathExtname env q)) in *.
  simpl in Hp, Hq.
  repeat (destruct Hp as [Hp|Hp]); try contradiction;
    injection Hp as <- <-;
    (repeat (destruct Hq as [Hq|Hq]); try contradiction;
     try discriminate Hq; injection Hq as <-);
    (split; [reflexivity | simpl; tauto]).
Qed.

Lemma guessMime_injective_example :
  let env := {| processCwd := []; processNodeEnv := None; win32 := false;
                pathResolve := fun ps => last ps [];
                pathBasename := fun p => p;
                pathExtname := fun p => skipn (List.length p - 3) p;
                toLowerCase := fun s => s;
                existsSync := fun _ => true;
                execa := fun _ _ _ => Thrown [] |} in
  pathExtname env (lit "/srv/a.py") = pathExtname env (lit "/tmp/b.py").
Proof.
  intros env.
  apply (guessMime_injective env (lit "/srv/a.py") (lit "/tmp/b.py") (lit "text/x-python"));
    reflexivity.
Defined.

(** * The [debug_suggest_fix] tool *)

Lemma join_cons_truthy sep x rest : truthy x = true -> truthy (join sep (x :: rest)) = true.
Proof.
  intros H. destruct x as [|c x]; [discriminate|]. simpl. destruct rest; reflexivity.
Qed.

(** The text of the tool is the summary block, then the block of likely
    files exactly when at least one hint is given (an empty list counts as
    none), then the closing instruction, with an empty line between blocks;
    the hints come one per line, in order, each after a dash and a space. *)
Theorem suggestFixText_blocks (stack : jsstring) (fileHints : option (list jsstring)) :
  suggestFixText stack fileHints =
    lit "Stack summary:" ++ [NL] ++ summarizeStack stack ++ [NL; NL] ++
    match fileHints with
    | Some (h :: hs) =>
        lit "Likely files:" ++ [NL] ++
        join [NL] (map (fun p => lit "- " ++ p) (h :: hs)) ++ [NL; NL]
    | _ => []
    end ++
    closingInstruction.
Proof.
  unfold suggestFixText. cbv zeta.
  assert (forall (x : jsstring) (y : option jsstring),
            join [NL; NL] (filterBoolean [Some (lit "Stack summary:" ++ x); y; Some closingInstruction])
            = lit "Stack summary:" ++ x ++ [NL; NL] ++
              match y with
              | Some (c :: s) => (c :: s) ++ [NL; NL]
              | _ => []
              end ++ closingInstruction) as H.
  { intros x y. destruct y as [[|c s]|]; simpl; try reflexivity.
    repeat rewrite <- app_assoc. reflexivity. }
  destruct fileHints as [[|h hs]|].
  - etransitivity; [exact (H ([NL] ++ summarizeStack stack) None)|].
    simpl. repeat rewrite <- app_assoc. reflexivity.
  - cbn [map]. rewrite join_cons_truthy by reflexivity.
    etransitivity;
      [exact (H ([NL] ++ summarizeStack stack)
                (Some (lit "Likely files:" ++ [NL] ++
                       join [NL] (map (fun p => lit "- " ++ p) (h :: hs)))))|].
    simpl. repeat rewrite <- app_assoc. reflexivity.
  - etransitivity; [exact (H ([NL] ++ summarizeStack stack) None)|].
    simpl. repeat rewrite <- app_assoc. reflexivity.
Qed.

(** * The first anchor wins *)

(** In a family-A record, kind, message and stack are those of an anchor
    in the text, and no anchor of the text starts before it: of several
    anchors only the first is used. *)
Theorem first_anchor_wins (text : jsstring) (r : ErrorRecord) :
  parseError (Some text) = Some r -> runtime r = node ->
  exists pre ws,
    anchorMatch text pre (type r) ws (message r) (stack r) /\
    forall pre' kind' ws' msg' stk',
      anchorMatch text pre' kind' ws' msg' stk' ->
      (List.length pre <= List.length pre')%nat.
Proof.
  intros Hr Rt.
  destruct (parseError_node_inv _ _ Hr Rt) as (g & Hg & -> & -> & -> & _).
  apply execFrom_elim in Hg as (pre & s & -> & Hrun & Hearlier).
  pose proof Hrun as Hrun'.
  apply nodeRe_elim in Hrun' as (Hb & w & ws & msg & stk & -> & Hw & Hws & Hne & Hmsg & Hs
                                 & -> & -> & ->).
  exists pre, ws. split.
  - unfold anchorMatch. repeat split; auto.
    + now apply atBol_lineStart.
    + exists w. auto.
  - intros pre' kind' ws' msg' stk' (E & Hls & (w' & -> & Hw') & Hws' & Hne' & Hmsg' & Hs').
    destruct (Nat.le_gt_cases (List.length pre) (List.length pre')) as [L|L]; [exact L|].
    exfalso. symmetry in E.
    destruct (app_longer _ _ _ _ E L) as (x & Hx & Epre & Es).
    destruct (nodeRe_complete (advance None pre') w' ws' msg' stk') as (g' & Hg'); auto.
    { now apply atBol_lineStart. }
    rewrite Es in Hg'. rewrite (Hearlier pre' x Epre Hx) in Hg'. discriminate.
Qed.

Lemma first_anchor_wins_example :
  exists r,
    parseError (Some (lit "AError: one" ++ NL :: lit "BError: two" ++ NL :: lit "at x"))
      = Some r /\
    type r = lit "AError".
Proof.
  match goal with |- exists r, parseError (Some ?t) = _ /\ _ => set (text := t) end.
  destruct (parseError (Some text)) as [r|] eqn:Hr; [|discriminate].
  assert (runtime r = node) as Rt.
  { vm_compute in Hr. injection Hr as <-. reflexivity. }
  destruct (first_anchor_wins text r Hr Rt) as (pre & ws & Hm & Hfirst).
  exists r. split; [reflexivity|].
  assert (anchorMatch text [] (lit "AError") (lit " ") (lit "one")
            (lit "BError: two" ++ NL :: lit "at x")) as H0.
  { repeat split; try reflexivity; try discriminate.
    - now left.
    - exists (lit "A"). split; reflexivity. }
  specialize (Hfirst _ _ _ _ _ H0). destruct pre; [|simpl in Hfirst; lia].
  vm_compute in Hr. injection Hr as <-. reflexivity.
Defined.
